(** * Antigravity session manager: rotation, synchronisation and loading

    A shallow embedding of [session.ts].  The two SQLite databases the
    script works on are modelled as finite maps:

    - the IDE's state store [state.vscdb], table [ItemTable (key TEXT
      PRIMARY KEY, value TEXT)], as a map from keys to values;
    - the script's own [sessions.db], table [sessions] with primary key
      [email], as a map from the e-mail to the remaining columns.

    Strings are byte strings, which is how SQLite compares TEXT under its
    default BINARY collation.  [Date.now()] is an input of every operation
    that calls it.  Console output is kept as a list of typed messages.
    The installation of the key bindings, which only copies and writes
    files, is left out.  *)

From Stdlib Require Import ZArith String Ascii.
From stdpp Require Import gmap strings list sorting fin_maps.

Local Open Scope Z_scope.

(** ** Data model *)

(** The columns of a [sessions] row other than the primary key [email]. *)
Record Row := mkRow {
  name : option string;
  auth_status : string;
  google_data : string;
  last_used : Z;
  created_at : Z;
  updated_at : Z }.

(** [interface Session]: what [SELECT *] returns, the key and its columns. *)
Abbreviation Session := (string * Row)%type.
Definition email (s : Session) : string := s.1.
Arguments email : simpl never.

(** ** JavaScript values

    The value of [JSON.parse(text).email].  The script declares it a
    string but never checks: whatever the auth blob holds there is what
    [getCurrentSession] returns.  The script uses the value in four ways:
    as a condition ([!email]), as an operand of [===] against the [email]
    of a row (a string, the column being TEXT), as a bound parameter of a
    statement on the [email] column, and inside a template literal.  A
    value that is not a string, such as the number 123, is kept as what
    the first three uses observe of it: whether it is truthy, and the
    text the [email] column holds and compares for it ([bun:sqlite] binds
    a number as a numeric value, which the TEXT affinity of the column
    turns into text: '123' for 123). *)
Inductive JsValue :=
  | JsString (s : string)
  | JsOther (truthy : bool) (text : string).

Global Instance JsValue_eq_dec : EqDecision JsValue.
Proof. solve_decision. Defined.

(** JavaScript truthiness of a string, of an optional string and of a
    value: [!s], [s || ...]. *)
Definition falsy (s : string) : bool := bool_decide (s = EmptyString).
Definition truthy_opt (o : option string) : option string :=
  match o with
  | Some s => if falsy s then None else Some s
  | None => None
  end.
Definition js_falsy (v : JsValue) : bool :=
  match v with
  | JsString s => falsy s
  | JsOther truthy _ => negb truthy
  end.
Definition js_truthy_opt (o : option JsValue) : option JsValue :=
  match o with
  | Some v => if js_falsy v then None else Some v
  | None => None
  end.

(** The value as a parameter bound to the [email] column. *)
Definition sql_text (v : JsValue) : string :=
  match v with
  | JsString s => s
  | JsOther _ text => text
  end.

(** [e === v] for the [email] of a row, which is a string: the
    comparison holds only when [v] is that very string. *)
Definition strict_eq (e : string) (v : JsValue) : Prop := JsString e = v.
Global Instance strict_eq_dec e v : Decision (strict_eq e v).
Proof. unfold strict_eq. apply _. Defined.

(** The object returned by [getCurrentSession]. *)
Record Current := mkCurrent {
  cur_email : JsValue;
  cur_auth_status : string;
  cur_google_data : string }.

(** Lines written by [console.log] and [console.error].  A line that
    interpolates [current.email] carries that value, a line that
    interpolates the [email] of a row or the command-line argument
    carries the string. *)
Inductive Msg :=
  | ErrParsingCurrent                (* console.error('Error parsing current session:', e) *)
  | LogNoActiveSession               (* 'No active session found in Antigravity.' *)
  | LogUpdated (e : JsValue)         (* 'Updated session for: e' *)
  | LogUpToDate (e : JsValue)        (* 'Session for e is already up to date.' *)
  | LogAdded (e : JsValue)           (* 'Added new session: e' *)
  | ErrSessionNotFound (e : string)  (* console.error('Session not found: e') *)
  | LogLoaded (e : string)           (* 'Loaded session: e' *)
  | LogPleaseReload                  (* 'Please reload the window (Cmd+R) ...' *)
  | LogSyncing                       (* 'Syncing current session...' *)
  | LogNoSessions                    (* 'No sessions available. Please log in first.' *)
  | LogAlreadyOnly (e : JsValue)     (* 'Already on the only available session: e' *)
  | LogSwitching (e : string)        (* 'Switching to: e' *)
  | LogDeleted (e : string)          (* 'Deleted session: e' *)
  | ErrUsageLoad                     (* console.error('Usage: bun session.ts load <email>') *)
  | ErrUsageDelete.                  (* console.error('Usage: bun session.ts delete <email>') *)

(** Which of the lines go to standard error. *)
Definition on_stderr (m : Msg) : bool :=
  match m with
  | ErrParsingCurrent | ErrSessionNotFound _ | ErrUsageLoad | ErrUsageDelete => true
  | _ => false
  end.

(** The state the script runs against.  [live = None] stands for a state
    store that has no usable [ItemTable] (the file or the table is
    missing): every statement run against it raises an SQLite error. *)
Record World := mkWorld {
  live : option (gmap string string);
  sessions : gmap string Row;
  console : list Msg }.

Definition set_live (l : option (gmap string string)) (w : World) : World :=
  mkWorld l (sessions w) (console w).
Definition set_sessions (t : gmap string Row) (w : World) : World :=
  mkWorld (live w) t (console w).

(** ** Effects: state, uncaught exceptions and [process.exit] *)

Inductive Res (A : Type) :=
  | Ok (a : A) (w : World)         (* ran to completion *)
  | Uncaught (w : World)           (* an SQLite error propagated to top level *)
  | Exited (code : Z) (w : World). (* process.exit(code) *)
Arguments Ok {A} a w.
Arguments Uncaught {A} w.
Arguments Exited {A} code w.

Definition M (A : Type) : Type := World → Res A.

Definition ret {A} (a : A) : M A := λ w, Ok a w.
Definition bind {A B} (m : M A) (k : A → M B) : M B := λ w,
  match m w with
  | Ok a w' => k a w'
  | Uncaught w' => Uncaught w'
  | Exited c w' => Exited c w'
  end.

Global Instance M_ret : MRet M := @ret.
Global Instance M_bind : MBind M := λ A B k m, bind m k.

(** The world an invocation leaves behind, however it ended. *)
Definition world_of {A} (r : Res A) : World :=
  match r with Ok _ w | Uncaught w | Exited _ w => w end.

(** The status the process terminates with: 0 on normal completion, the
    argument of [process.exit], 1 for an uncaught exception. *)
Definition exit_status {A} (r : Res A) : Z :=
  match r with Ok _ _ => 0 | Uncaught _ => 1 | Exited c _ => c end.

Definition crashed {A} (r : Res A) : bool :=
  match r with Uncaught _ => true | _ => false end.

Definition print (m : Msg) (w : World) : World :=
  mkWorld (live w) (sessions w) (console w ++ [m]).
Definition console_log (m : Msg) : M unit := λ w, Ok tt (print m w).
Definition console_error (m : Msg) : M unit := console_log m.
Definition process_exit {A} (code : Z) : M A := λ w, Exited code w.

(** Opening the IDE store and running a statement on [ItemTable]. *)
Definition ag_select (key : string) : M (option string) := λ w,
  match live w with
  | Some t => Ok (t !! key) w
  | None => Uncaught w
  end.
(** [INSERT OR REPLACE INTO ItemTable (key, value) VALUES (?, ?)] *)
Definition ag_insert_or_replace (key value : string) : M unit := λ w,
  match live w with
  | Some t => Ok tt (set_live (Some (<[key := value]> t)) w)
  | None => Uncaught w
  end.

(** [initSessionDB]: creates the directory and the [sessions] table when
    they are missing.  In the model the table always exists, empty at
    first, so this changes nothing. *)
Definition initSessionDB : M unit := λ w, Ok tt w.

(** Statements on the [sessions] table. *)
Definition db_select_by_email (e : string) : M (option Session) := λ w,
  Ok ((λ r, (e, r)) <$> sessions w !! e) w.
(** [INSERT INTO sessions ...]: a second row for a key violates the
    primary key and raises. *)
Definition db_insert (e : string) (r : Row) : M unit := λ w,
  match sessions w !! e with
  | Some _ => Uncaught w
  | None => Ok tt (set_sessions (<[e := r]> (sessions w)) w)
  end.
(** [UPDATE sessions SET ... WHERE email = ?] *)
Definition db_update (f : Row → Row) (e : string) : M unit := λ w,
  Ok tt (set_sessions (alter f e (sessions w)) w).
(** [DELETE FROM sessions WHERE email = ?] *)
Definition db_delete (e : string) : M unit := λ w,
  Ok tt (set_sessions (delete e (sessions w)) w).

(** [ORDER BY last_used ASC, email ASC]: integers by value, then TEXT
    byte-wise. *)
Definition order_by_last_used_email (a b : Session) : bool :=
  (last_used a.2 <? last_used b.2)
  || ((last_used a.2 =? last_used b.2) && String.leb (email a) (email b)).
Definition session_le (a b : Session) : Prop :=
  order_by_last_used_email a b = true.
Global Instance session_le_dec : RelDecision session_le.
Proof. intros a b. unfold session_le. apply _. Defined.

(** [SELECT * FROM sessions ORDER BY last_used ASC, email ASC] *)
Definition select_ordered (t : gmap string Row) : list Session :=
  merge_sort session_le (map_to_list t).
Definition db_select_ordered : M (list Session) := λ w,
  Ok (select_ordered (sessions w)) w.

(** [JSON.parse(text).email], the one use the script makes of JSON.
    [None]: the evaluation throws ([JSON.parse] rejects the text, or the
    parsed value is [null]); [Some None]: the property is [undefined];
    [Some (Some v)]: the property is the value [v].  The text the
    [email] column holds for a truthy value is never empty (a non-empty
    string is bound as itself, a number as its digits). *)
Class JsonParser := {
  JSON_parse_email : string → option (option JsValue);
  JSON_email_text text v :
    JSON_parse_email text = Some (Some v) → js_falsy v = false →
    sql_text v ≠ EmptyString }.

(** The column setters of the three [UPDATE]/[INSERT] statements. *)
Definition set_blobs (a g : string) (now : Z) (r : Row) : Row :=
  mkRow (name r) a g (last_used r) (created_at r) now.
Definition set_last_used (now : Z) (r : Row) : Row :=
  mkRow (name r) (auth_status r) (google_data r) now (created_at r) (updated_at r).
Definition new_row (a g : string) (now : Z) : Row :=
  mkRow None a g 0 now now.

Definition AUTH_KEY : string := "antigravityAuthStatus".
Definition GOOGLE_KEY : string := "google.antigravity".

Section Program.
Context `{!JsonParser}.

(** ** The operations of [session.ts] *)

Definition getCurrentSession : M (option Current) :=
  authRow ← ag_select AUTH_KEY;
  googleRow ← ag_select GOOGLE_KEY;
  match authRow with
  | None => mret None
  | Some value =>
      match JSON_parse_email value with
      | None => console_error ErrParsingCurrent;; mret None
      | Some email =>
          match js_truthy_opt email with
          | None => mret None
          | Some email =>
              mret (Some (mkCurrent email value
                            (default "{}" (truthy_opt googleRow))))
          end
      end
  end.

Definition syncCurrent (now : Z) : M unit :=
  current ← getCurrentSession;
  match current with
  | None => console_log LogNoActiveSession
  | Some current =>
      initSessionDB;;
      existing ← db_select_by_email (sql_text (cur_email current));
      match existing with
      | Some existing =>
          if bool_decide (auth_status existing.2 ≠ cur_auth_status current)
             || bool_decide (google_data existing.2 ≠ cur_google_data current)
          then
            db_update (set_blobs (cur_auth_status current)
                         (cur_google_data current) now)
              (sql_text (cur_email current));;
            console_log (LogUpdated (cur_email current))
          else console_log (LogUpToDate (cur_email current))
      | None =>
          db_insert (sql_text (cur_email current))
            (new_row (cur_auth_status current) (cur_google_data current) now);;
          console_log (LogAdded (cur_email current))
      end
  end.

Definition getNextSession (currentEmail : option JsValue) : M (option Session) :=
  initSessionDB;;
  sessions ← db_select_ordered;
  if bool_decide (length sessions = 0%nat) then mret None
  else if bool_decide (length sessions = 1%nat) then mret (sessions !! 0%nat)
  else match js_truthy_opt currentEmail with
       | None => mret (sessions !! 0%nat)
       | Some currentEmail =>
           match list_find (λ s, strict_eq (email s) currentEmail) sessions with
           | None => mret (sessions !! 0%nat)
           | Some (currentIndex, _) =>
               let nextIndex := ((currentIndex + 1) `mod` length sessions)%nat in
               mret (sessions !! nextIndex)
           end
       end.

Definition loadSession (email : string) (now : Z) : M unit :=
  initSessionDB;;
  session ← db_select_by_email email;
  match session with
  | None => console_error (ErrSessionNotFound email)
  | Some session =>
      ag_insert_or_replace AUTH_KEY (auth_status session.2);;
      ag_insert_or_replace GOOGLE_KEY (google_data session.2);;
      db_update (set_last_used now) email;;
      console_log (LogLoaded email);;
      console_log LogPleaseReload
  end.

(** [next]: the first reading of the clock is the one [syncCurrent]
    takes, the second the one [loadSession] takes. *)
Definition next (now_sync now_load : Z) : M unit :=
  console_log LogSyncing;;
  syncCurrent now_sync;;
  current ← getCurrentSession;
  nextSession ← getNextSession (cur_email <$> current);
  match nextSession with
  | None => console_log LogNoSessions
  | Some nextSession =>
      match current with
      | Some current =>
          if bool_decide (strict_eq (email nextSession) (cur_email current))
          then console_log (LogAlreadyOnly (cur_email current))
          else console_log (LogSwitching (email nextSession));;
               loadSession (email nextSession) now_load
      | None =>
          console_log (LogSwitching (email nextSession));;
          loadSession (email nextSession) now_load
      end
  end.

Definition loadByEmail (email : string) (now : Z) : M unit :=
  loadSession email now.

Definition deleteSession (email : string) : M unit :=
  initSessionDB;;
  db_delete email;;
  console_log (LogDeleted email).

(** The command switch at the end of the script, for the four commands
    of the core; [arg] is [process.argv[3]].  ([list] only prints, and
    the default branch installs key bindings.) *)
Inductive Command :=
  | CmdNext
  | CmdSync
  | CmdLoad (arg : option string)
  | CmdDelete (arg : option string).

Definition main (command : Command) (now1 now2 : Z) : M unit :=
  match command with
  | CmdNext => next now1 now2
  | CmdSync => syncCurrent now1
  | CmdLoad arg =>
      match truthy_opt arg with
      | None => console_error ErrUsageLoad;; process_exit 1
      | Some arg => loadByEmail arg now1
      end
  | CmdDelete arg =>
      match truthy_opt arg with
      | None => console_error ErrUsageDelete;; process_exit 1
      | Some arg => deleteSession arg
      end
  end.

End Program.


(** ** A reference JSON reader for flat objects

    The theorems below hold for every [JsonParser].  For the worked
    scenarios a concrete reader is needed; this one accepts exactly the
    objects [{"k":v,...}] whose keys are strings without escapes and
    whose values are such strings or integer literals of at most 9
    digits, written without white space, and agrees with [JSON.parse] on
    them (a repeated key takes its last value).  It rejects every other
    text, also JSON outside this fragment; the scenarios stay inside
    it. *)
Module FlatJson.

Definition dquote : ascii := "034"%char.
Definition backslash : ascii := "092"%char.

(** The characters of a string literal up to its closing quote. *)
Fixpoint read_chars (s : string) : option (string * string) :=
  match s with
  | EmptyString => None
  | String c s' =>
      if bool_decide (c = dquote) then Some (EmptyString, s')
      else if bool_decide (c = backslash) || (nat_of_ascii c <? 32)%nat then None
      else '(v, rest) ← read_chars s'; Some (String c v, rest)
  end.

Definition read_string (s : string) : option (string * string) :=
  match s with
  | String c s' => if bool_decide (c = dquote) then read_chars s' else None
  | EmptyString => None
  end.

(** An integer literal: its digits, without a leading zero.  The number
    is truthy unless it is 0, and the [email] column holds it as the text
    of its digits. *)
Definition is_digit (c : ascii) : bool :=
  (48 <=? nat_of_ascii c)%nat && (nat_of_ascii c <=? 57)%nat.
Fixpoint read_digits (s : string) : string * string :=
  match s with
  | EmptyString => (EmptyString, EmptyString)
  | String c s' =>
      if is_digit c
      then let '(digits, rest) := read_digits s' in (String c digits, rest)
      else (EmptyString, s)
  end.
Definition read_number (s : string) : option (JsValue * string) :=
  let '(digits, rest) := read_digits s in
  match digits with
  | EmptyString => None
  | String "0" EmptyString => Some (JsOther false digits, rest)
  | String "0" _ => None
  | String _ _ =>
      if (String.length digits <=? 9)%nat
      then Some (JsOther true digits, rest) else None
  end.

Definition read_value (s : string) : option (JsValue * string) :=
  match s with
  | String c _ =>
      if bool_decide (c = dquote)
      then '(v, rest) ← read_string s; Some (JsString v, rest)
      else read_number s
  | EmptyString => None
  end.

Fixpoint read_members (fuel : nat) (s : string) (acc : list (string * JsValue))
  : option (list (string * JsValue)) :=
  match fuel with
  | O => None
  | S fuel =>
      '(k, s1) ← read_string s;
      match s1 with
      | String ":" s2 =>
          '(v, s3) ← read_value s2;
          match s3 with
          | String "}" EmptyString => Some (acc ++ [(k, v)])
          | String "," s4 => read_members fuel s4 (acc ++ [(k, v)])
          | _ => None
          end
      | _ => None
      end
  end.

Definition parse (s : string) : option (list (string * JsValue)) :=
  match s with
  | String "{" (String "}" EmptyString) => Some []
  | String "{" s' => read_members (String.length s') s' []
  | _ => None
  end.

(** Property access on the parsed object: the last binding of the key. *)
Definition property (k : string) (fields : list (string * JsValue))
  : option JsValue :=
  snd <$> last (filter (λ kv, kv.1 = k) fields).

Definition parse_email (s : string) : option (option JsValue) :=
  property "email" <$> parse s.

(** [JSON.stringify] of a flat object of strings, and of an object with
    one member that is a number. *)
Definition quoted (s : string) : string :=
  String dquote s +:+ String dquote EmptyString.
Fixpoint members (fields : list (string * string)) : string :=
  match fields with
  | [] => EmptyString
  | [(k, v)] => quoted k +:+ ":" +:+ quoted v
  | (k, v) :: rest => quoted k +:+ ":" +:+ quoted v +:+ "," +:+ members rest
  end.
Definition object (fields : list (string * string)) : string :=
  "{" +:+ members fields +:+ "}".
Definition number_object (k digits : string) : string :=
  "{" +:+ quoted k +:+ ":" +:+ digits +:+ "}".

(** A truthy value this reader yields has a text that is not empty. *)
Definition bound (v : JsValue) : Prop :=
  js_falsy v = false → sql_text v ≠ EmptyString.

Lemma read_value_bound s v rest : read_value s = Some (v, rest) → bound v.
Proof.
  unfold read_value, read_number, bound.
  destruct s as [|c s]; [done|]. case_bool_decide.
  - destruct (read_string (String c s)) as [[v' r]|]; simpl; [|done].
    intros [= <- <-]. simpl. unfold falsy. by case_bool_decide.
  - destruct (read_digits (String c s)) as [digits r].
    destruct digits as [|d digits]; [done|].
    repeat case_match; intros; by simplify_eq/=.
Qed.

Lemma read_members_bound fuel s acc fields :
  Forall (λ kv, bound kv.2) acc →
  read_members fuel s acc = Some fields → Forall (λ kv, bound kv.2) fields.
Proof.
  revert s acc. induction fuel as [|fuel IH]; intros s acc Hacc; [done|].
  simpl. destruct (read_string s) as [[k s1]|]; simpl; [|done].
  destruct s1 as [|c s2]; [done|].
  destruct (decide (c = ":"%char)) as [->|]; [|by repeat case_match].
  destruct (read_value s2) as [[v s3]|] eqn:Hv; simpl; [|done].
  assert (Forall (λ kv, bound kv.2) (acc ++ [(k, v)])) as Hacc'.
  { apply Forall_app. split; [done|]. constructor; [|done].
    by apply (read_value_bound s2 v s3). }
  repeat case_match; intros; simplify_eq; try done.
  by eapply IH.
Qed.

Lemma parse_email_bound s v : parse_email s = Some (Some v) → bound v.
Proof.
  unfold parse_email, property.
  destruct (parse s) as [fields|] eqn:Hparse; simpl; [|done].
  assert (Forall (λ kv, bound kv.2) fields) as Hall.
  { unfold parse in Hparse. repeat case_match; simplify_eq; try done.
    all: by apply (read_members_bound _ _ [] _ (Forall_nil_2 _) Hparse). }
  destruct (last _) as [[k v']|] eqn:Hlast; simpl; [|done].
  intros [= <-]. apply last_Some_elem_of in Hlast.
  apply list_elem_of_filter in Hlast as [_ Hin].
  rewrite Forall_forall in Hall. by apply (Hall (k, v')).
Qed.

End FlatJson.

Definition flat_json : JsonParser :=
  {| JSON_parse_email := FlatJson.parse_email;
     JSON_email_text := FlatJson.parse_email_bound |}.

(** ** Vocabulary of the specification *)

(** The rotation order, strictly: [last_used] ascending, ties broken by
    the identity ascending. *)
Definition rotation_lt (a b : Session) : Prop :=
  last_used a.2 < last_used b.2
  ∨ (last_used a.2 = last_used b.2 ∧ String.compare (email a) (email b) = Lt).

(** [l] lists the sessions of the repository [t] in rotation order. *)
Definition ordered_listing (t : gmap string Row) (l : list Session) : Prop :=
  (∀ s, s ∈ l ↔ t !! email s = Some s.2) ∧ StronglySorted rotation_lt l.

(** No session is stored under the empty identity. *)
Definition identities_nonempty (t : gmap string Row) : Prop := t !! EmptyString = None.


(** The successor map of the rotation: the identity that [getNextSession]
    selects when [e] is the current one, and its iterates. *)
Definition successor (w : World) (e : string) : option string :=
  match getNextSession (Some (JsString e)) w with
  | Ok (Some s) _ => Some (email s)
  | _ => None
  end.
Fixpoint successor_iter (w : World) (n : nat) (e : string) : option string :=
  match n with
  | O => Some e
  | S n => e' ← successor_iter w n e; successor w e'
  end.

(** The result of the Sync Engine, as the specification names it; the
    script reports it as the line it prints last. *)
Inductive SyncResult :=
  | Added (identity : JsValue)
  | Updated (identity : JsValue)
  | Unchanged (identity : JsValue)
  | NoActiveSession.

Definition sync_result_of (m : Msg) : option SyncResult :=
  match m with
  | LogAdded e => Some (Added e)
  | LogUpdated e => Some (Updated e)
  | LogUpToDate e => Some (Unchanged e)
  | LogNoActiveSession => Some NoActiveSession
  | _ => None
  end.

(** The lines a run printed, given the world it started from. *)
Definition printed {A} (before : World) (r : Res A) : list Msg :=
  drop (length (console before)) (console (world_of r)).

Definition sync_result (before : World) (r : Res unit) : option SyncResult :=
  last (printed before r) ≫= sync_result_of.

(** Consecutive calls of [syncCurrent], one per clock reading, with
    nothing else touching the stores in between; the results in order. *)
Fixpoint sync_calls `{!JsonParser} (nows : list Z) (w : World)
  : list (option SyncResult) :=
  match nows with
  | [] => []
  | now :: nows =>
      let r := syncCurrent now w in
      sync_result w r :: sync_calls nows (world_of r)
  end.

(** ** Histories

    What can happen to the two stores: an invocation of the script with
    one of its commands (and the readings [Date.now()] returns to it), or
    the IDE rewriting its own state store (log-in, log-out, refresh). *)
Inductive Event :=
  | EvRun (command : Command) (now1 now2 : Z)
  | EvIde (store : option (gmap string string)).

Definition step `{!JsonParser} (ev : Event) (w : World) : World :=
  match ev with
  | EvRun command now1 now2 => world_of (main command now1 now2 w)
  | EvIde store => set_live store w
  end.

Definition run `{!JsonParser} (evs : list Event) (w : World) : World :=
  foldl (λ w ev, step ev w) w evs.

(** A repository the script has just created, beside any live store. *)
Definition fresh (store : option (gmap string string)) : World :=
  mkWorld store ∅ [].

Definition reachable `{!JsonParser} (w : World) : Prop :=
  ∃ store evs, w = run evs (fresh store).

(** The clock readings of a history never go back, starting from [t0]. *)
Fixpoint chronological (t0 : Z) (evs : list Event) : Prop :=
  match evs with
  | [] => True
  | EvRun _ now1 now2 :: evs => t0 ≤ now1 ∧ now1 ≤ now2 ∧ chronological now2 evs
  | EvIde _ :: evs => chronological t0 evs
  end.

(** The last reading of a history that started at [t0]. *)
Fixpoint end_time (t0 : Z) (evs : list Event) : Z :=
  match evs with
  | [] => t0
  | EvRun _ _ now2 :: evs => end_time now2 evs
  | EvIde _ :: evs => end_time t0 evs
  end.

(** No stored [updated_at] lies after [t0]. *)
Definition stamped_before (t0 : Z) (t : gmap string Row) : Prop :=
  ∀ k r, t !! k = Some r → updated_at r ≤ t0.

(** What [getCurrentSession] guarantees of the object it returns. *)
Definition current_ok `{!JsonParser} (c : Current) : Prop :=
  js_falsy (cur_email c) = false
  ∧ JSON_parse_email (cur_auth_status c) = Some (Some (cur_email c))
  ∧ cur_google_data c ≠ EmptyString.

(** The single-statement writes the script performs on [sessions];
    [now] is the reading [syncCurrent] stamps rows with. *)
Inductive repo_write `{!JsonParser} (now : Z)
  : gmap string Row → gmap string Row → Prop :=
  | write_insert t c :
      current_ok c → t !! sql_text (cur_email c) = None →
      repo_write now t
        (<[sql_text (cur_email c) :=
             new_row (cur_auth_status c) (cur_google_data c) now]> t)
  | write_blobs t c :
      current_ok c →
      repo_write now t
        (alter (set_blobs (cur_auth_status c) (cur_google_data c) now)
           (sql_text (cur_email c)) t)
  | write_touch t e now' :
      repo_write now t (alter (set_last_used now') e t)
  | write_delete t e :
      repo_write now t (delete e t).

(** The invariant of stored rows: the key is not empty, it is the text
    of the truthy [email] of the auth blob stored beside it, and the
    secondary blob is not empty. *)
Definition row_written `{!JsonParser} (k : string) (r : Row) : Prop :=
  k ≠ EmptyString
  ∧ (∃ v, JSON_parse_email (auth_status r) = Some (Some v)
        ∧ js_falsy v = false ∧ sql_text v = k)
  ∧ google_data r ≠ EmptyString.

(** The row invariant of the specification: moreover that [email] is a
    string, so that the key is the [email] of the auth blob itself. *)
Definition row_ok `{!JsonParser} (k : string) (r : Row) : Prop :=
  k ≠ EmptyString
  ∧ JSON_parse_email (auth_status r) = Some (Some (JsString k))
  ∧ google_data r ≠ EmptyString.

(** ** Scenarios *)

(** The auth blob [{"email":"u@x.com","name":"U"}] and a later version of
    it for the same identity. *)
Definition blob_u : string :=
  FlatJson.object [("email", "u@x.com"); ("name", "U")].
Definition blob_u_renamed : string :=
  FlatJson.object [("email", "u@x.com"); ("name", "U2")].

(** A live store holding just an auth blob, beside an empty repository. *)
Definition logged_in (auth : string) : World :=
  fresh (Some {[ AUTH_KEY := auth ]}).

(** Sessions [a@x.com], [b@x.com], [c@x.com], last used at 1000, 2000 and
    3000, inserted in another order. *)
Definition abc_row (e : string) (lu : Z) : Row :=
  mkRow None (FlatJson.object [("email", e)]) "{}" lu 0 0.
Definition abc_sessions : gmap string Row :=
  <["b@x.com" := abc_row "b@x.com" 2000]>
    (<["c@x.com" := abc_row "c@x.com" 3000]>
       (<["a@x.com" := abc_row "a@x.com" 1000]> ∅)).
Definition abc_world : World := mkWorld None abc_sessions [].

(** [u@x.com] logs in and is synchronised at time 2000; the IDE then
    refreshes the auth blob. *)
Definition refreshed_history : list Event :=
  [EvRun CmdSync 2000 2000; EvIde (Some {[ AUTH_KEY := blob_u_renamed ]})].

(** The three sessions beside a live store that holds no identity. *)
Definition abc_logged_out : World := mkWorld (Some ∅) abc_sessions [].

(** The auth blob [{"email":123}], whose [email] is a number. *)
Definition blob_123 : string := FlatJson.number_object "email" "123".

(** [u@x.com] is stored; then [v@x.com] logs in through the IDE. *)
Definition blob_v : string := FlatJson.object [("email", "v@x.com")].
Definition second_login : list Event :=
  [EvRun CmdSync 1000 1000; EvIde (Some {[ AUTH_KEY := blob_v ]})].

(** ** The [list] command *)

(** [SELECT * FROM sessions ORDER BY last_used DESC].  SQL leaves the
    order among rows of equal [last_used] to the engine, so the query is a
    parameter; [listing_lawful] is what SQL guarantees of its result. *)
Class ListingOrder :=
  select_by_last_used_desc : gmap string Row → list Session.

Definition last_used_desc (a b : Session) : Prop :=
  last_used b.2 ≤ last_used a.2.

Definition listing_lawful `{!ListingOrder} : Prop :=
  ∀ t, select_by_last_used_desc t ≡ₚ map_to_list t
       ∧ StronglySorted last_used_desc (select_by_last_used_desc t).

(** The lines [listSessions] prints.  A date is kept as the number it is
    rendered from, and the last use of a session never loaded
    ([last_used === 0]) as [None], printed 'never'. *)
Inductive ListLine :=
  | LineNoSessionsStored                  (* 'No sessions stored yet.' *)
  | LineHeader                            (* 'Available Sessions:' *)
  | LineEntry (isCurrent : bool) (number : nat) (e : string)
                                          (* '<marker> <index + 1>. <email>' *)
  | LineLastUsed (lastUsed : option Z)    (* 'Last used: <never or date>' *)
  | LineCreated (created : Z).            (* 'Created: <date>' *)

(** The body of [sessions.forEach((session, index) => ...)], from
    [index] on: three lines per session. *)
Fixpoint list_lines (current : option Current) (index : nat)
    (sessions : list Session) : list ListLine :=
  match sessions with
  | [] => []
  | session :: rest =>
      let isCurrent :=
        match current with
        | Some current =>
            bool_decide (strict_eq (email session) (cur_email current))
        | None => false
        end in
      let lastUsed :=
        if bool_decide (last_used session.2 = 0) then None
        else Some (last_used session.2) in
      LineEntry isCurrent (index + 1) (email session)
      :: LineLastUsed lastUsed
      :: LineCreated (created_at session.2)
      :: list_lines current (S index) rest
  end.

(** [listSessions].  The lines of the listing are the result, in the
    order printed; the console of the world only receives what
    [getCurrentSession] prints, which in the script comes between the
    header and the entries. *)
Definition listSessions `{!JsonParser} `{!ListingOrder} : M (list ListLine) :=
  initSessionDB;;
  sessions ← (λ w, Ok (select_by_last_used_desc (sessions w)) w);
  if bool_decide (length sessions = 0%nat) then mret [LineNoSessionsStored]
  else
    current ← getCurrentSession;
    mret (LineHeader :: list_lines current 0 sessions).

(** The identities a listing shows, in order; the marked ones; and the
    numbers the entries carry. *)
Definition listed (lines : list ListLine) : list string :=
  omap (λ line, match line with LineEntry _ _ e => Some e | _ => None end) lines.
Definition marked (lines : list ListLine) : list string :=
  omap (λ line, match line with LineEntry true _ e => Some e | _ => None end)
    lines.
Definition numbers (lines : list ListLine) : list nat :=
  omap (λ line, match line with LineEntry _ n _ => Some n | _ => None end) lines.

(** A lawful listing order: a stable sort of the rows as the map
    enumerates them. *)
Global Instance last_used_desc_dec : RelDecision last_used_desc.
Proof. intros a b. unfold last_used_desc. apply _. Defined.
Definition sorted_desc : ListingOrder :=
  λ t, merge_sort last_used_desc (map_to_list t).

(** The event is a [delete] of the identity [k]. *)
Definition deletes (k : string) (ev : Event) : Prop :=
  match ev with
  | EvRun (CmdDelete arg) _ _ => truthy_opt arg = Some k
  | _ => False
  end.

(** The stamps of every row are in order and not after [t0]. *)
Definition stamps_ordered (t0 : Z) (t : gmap string Row) : Prop :=
  ∀ k r, t !! k = Some r → created_at r ≤ updated_at r ∧ updated_at r ≤ t0.

(** ** Pressing [next] again and again *)

(** The identities of the rotation listing, in order. *)
Definition rotation (w : World) : list string :=
  (select_ordered (sessions w)).*1.

(** The state a completed load leaves behind: every row satisfies the
    row invariant, the live store reads as the identity [c], the row of
    [c] holds the two blobs of the live store, [c] is the last of the
    rotation listing, and no [last_used] lies after [bound]. *)
Definition settled `{!JsonParser} (bound : Z) (c : Current) (w : World)
    : Prop :=
  map_Forall row_ok (sessions w)
  ∧ getCurrentSession w = Ok (Some c) w
  ∧ (∃ r, sessions w !! sql_text (cur_email c) = Some r
        ∧ auth_status r = cur_auth_status c
        ∧ google_data r = cur_google_data c)
  ∧ JsString <$> last (rotation w) = Some (cur_email c)
  ∧ map_Forall (λ _ r, last_used r ≤ bound) (sessions w).

(** One invocation of [next] per pair of clock readings. *)
Definition presses (nows : list (Z * Z)) : list Event :=
  (λ n, EvRun CmdNext n.1 n.2) <$> nows.

(** The reading each invocation loads with is later than [bound] and
    than the readings of the invocations before it. *)
Fixpoint ever_later (bound : Z) (nows : list (Z * Z)) : Prop :=
  match nows with
  | [] => True
  | n :: nows => bound < n.2 ∧ ever_later n.2 nows
  end.

(** The three sessions with [c@x.com], the last one used, in the live
    store. *)
Definition abc_on_c : World :=
  mkWorld
    (Some {[ AUTH_KEY := FlatJson.object [("email", "c@x.com")];
             GOOGLE_KEY := "{}" ]})
    abc_sessions [].

(** ** Vocabulary for the command line *)

(** The command lacks its argument ([process.argv[3]] absent or empty). *)
Definition usage_error (command : Command) : Prop :=
  match command with
  | CmdLoad arg | CmdDelete arg => truthy_opt arg = None
  | CmdNext | CmdSync => False
  end.

(** The command gets as far as opening the live store: [next] and [sync]
    always do, [load] does for a stored identity, [delete] never does. *)
Definition needs_live_store (command : Command) (w : World) : Prop :=
  match command with
  | CmdNext | CmdSync => True
  | CmdLoad arg => ∃ e, truthy_opt arg = Some e ∧ is_Some (sessions w !! e)
  | CmdDelete _ => False
  end.

(** Unfolds the monadic plumbing of a program run on a world. *)
Ltac run_prog :=
  unfold mbind, mret, M_bind, M_ret, bind, ret, console_error, console_log,
    print, process_exit, initSessionDB, ag_select, ag_insert_or_replace,
    db_select_by_email, db_insert, db_update, db_delete, db_select_ordered,
    set_live, set_sessions in *; simpl in *.

(** * Properties *)

(** ** The rotation order *)

Section RotationOrder.

Lemma ascii_compare_refl (c : ascii) : Ascii.compare c c = Eq.
Proof. unfold Ascii.compare. apply N.compare_refl. Qed.

Lemma ascii_compare_eq (a b : ascii) : Ascii.compare a b = Eq → a = b.
Proof. apply Ascii.compare_eq_iff. Qed.

Lemma ascii_compare_lt_trans (a b c : ascii) :
  Ascii.compare a b = Lt → Ascii.compare b c = Lt → Ascii.compare a c = Lt.
Proof.
  unfold Ascii.compare. rewrite !N.compare_lt_iff. apply N.lt_trans.
Qed.

Lemma string_compare_refl (s : string) : String.compare s s = Eq.
Proof. induction s as [|c s IH]; simpl; [done|]. by rewrite ascii_compare_refl. Qed.

Lemma string_compare_lt_trans (a b c : string) :
  String.compare a b = Lt → String.compare b c = Lt → String.compare a c = Lt.
Proof.
  revert b c. induction a as [|x a IH]; intros [|y b] [|z c]; simpl; try done.
  destruct (Ascii.compare x y) eqn:Hxy; try done.
  - apply ascii_compare_eq in Hxy as ->.
    destruct (Ascii.compare y z); try done. apply IH.
  - intros _. destruct (Ascii.compare y z) eqn:Hyz; try done.
    + apply ascii_compare_eq in Hyz as <-. by rewrite Hxy.
    + by rewrite (ascii_compare_lt_trans x y z).
Qed.

Lemma string_leb_lt (a b : string) :
  String.leb a b = true → a ≠ b → String.compare a b = Lt.
Proof.
  unfold String.leb. destruct (String.compare a b) eqn:Hc; try done.
  apply String.compare_eq_iff in Hc. done.
Qed.

Lemma string_lt_leb (a b : string) :
  String.compare a b = Lt → String.leb a b = true.
Proof. unfold String.leb. by intros ->. Qed.

Lemma string_leb_trans (a b c : string) :
  String.leb a b = true → String.leb b c = true → String.leb a c = true.
Proof.
  intros Hab Hbc.
  destruct (decide (a = b)) as [->|Hne1]; [done|].
  destruct (decide (b = c)) as [<-|Hne2]; [done|].
  apply string_lt_leb, (string_compare_lt_trans a b c); by apply string_leb_lt.
Qed.

Lemma session_le_unfold (a b : Session) :
  session_le a b ↔
  last_used a.2 < last_used b.2
  ∨ (last_used a.2 = last_used b.2 ∧ String.leb (email a) (email b) = true).
Proof.
  unfold session_le, order_by_last_used_email.
  rewrite orb_true_iff, andb_true_iff, Z.ltb_lt, Z.eqb_eq. done.
Qed.

Global Instance session_le_total : Total session_le.
Proof.
  intros a b. rewrite !session_le_unfold.
  destruct (Z.lt_trichotomy (last_used a.2) (last_used b.2)) as [?|[?|?]]; [lia| |lia].
  destruct (String.leb_total (email a) (email b)); [left|right]; right; split; auto.
Qed.

Global Instance session_le_trans : Transitive session_le.
Proof.
  intros a b c. rewrite !session_le_unfold.
  intros [?|[? Hab]] [?|[? Hbc]]; try lia.
  right. split; [lia|]. by eapply string_leb_trans.
Qed.

Lemma session_le_lt (a b : Session) :
  session_le a b → email a ≠ email b → rotation_lt a b.
Proof.
  rewrite session_le_unfold. intros [?|[? Hle]] Hne; [by left|].
  right. split; [done|]. by apply string_leb_lt.
Qed.

Global Instance rotation_lt_trans : Transitive rotation_lt.
Proof.
  intros a b c [?|[? Hab]] [?|[? Hbc]]; [left; lia..|].
  right. split; [lia|]. by eapply string_compare_lt_trans.
Qed.

Global Instance rotation_lt_irrefl : Irreflexive rotation_lt.
Proof.
  intros a [?|[_ Hlt]]; [lia|]. by rewrite string_compare_refl in Hlt.
Qed.

End RotationOrder.

(** ** The ordered listing of the repository *)

Section Listing.
Implicit Types (t : gmap string Row) (l : list Session) (s : Session).

Lemma select_ordered_perm t : select_ordered t ≡ₚ map_to_list t.
Proof. apply merge_sort_Permutation. Qed.

Lemma select_ordered_elem t s : s ∈ select_ordered t ↔ t !! email s = Some s.2.
Proof.
  rewrite select_ordered_perm. destruct s as [k r]. apply elem_of_map_to_list.
Qed.

Lemma select_ordered_lookup t i s :
  select_ordered t !! i = Some s → t !! email s = Some s.2.
Proof. intros H. apply select_ordered_elem. by eapply list_elem_of_lookup_2. Qed.

Lemma select_ordered_NoDup t : NoDup (select_ordered t).*1.
Proof. rewrite select_ordered_perm. apply NoDup_fst_map_to_list. Qed.

Lemma select_ordered_length t : length (select_ordered t) = size t.
Proof. rewrite select_ordered_perm. apply length_map_to_list. Qed.

Lemma select_ordered_empty : select_ordered ∅ = [].
Proof. apply length_zero_iff_nil. by rewrite select_ordered_length, map_size_empty. Qed.

Lemma select_ordered_singleton k r : select_ordered {[k := r]} = [(k, r)].
Proof.
  apply Permutation_singleton_r.
  by rewrite select_ordered_perm, map_to_list_singleton.
Qed.

Lemma strict_of_sorted l :
  StronglySorted session_le l → NoDup l.*1 → StronglySorted rotation_lt l.
Proof.
  induction 1 as [|a l Hs IH Hall]; intros Hnd; [constructor|].
  rewrite fmap_cons in Hnd. apply NoDup_cons in Hnd as [Hnotin Hnd].
  constructor; [by apply IH|].
  rewrite Forall_forall in Hall |- *. intros b Hb.
  apply session_le_lt; [by apply Hall|].
  intros Heq. apply Hnotin. unfold email in Heq. rewrite Heq.
  by apply list_elem_of_fmap_2.
Qed.

Lemma select_ordered_sorted t : StronglySorted rotation_lt (select_ordered t).
Proof.
  apply strict_of_sorted; [|apply select_ordered_NoDup].
  apply StronglySorted_merge_sort; apply _.
Qed.

Lemma ordered_listing_select t : ordered_listing t (select_ordered t).
Proof. split; [apply select_ordered_elem|apply select_ordered_sorted]. Qed.

Lemma strict_sorted_NoDup l : StronglySorted rotation_lt l → NoDup l.
Proof.
  induction 1 as [|a l Hs IH Hall]; constructor; [|done].
  intros Hin. rewrite Forall_forall in Hall.
  by apply (irreflexivity rotation_lt a), Hall.
Qed.

(** The rotation order leaves no choice: the listing is unique. *)
Lemma ordered_listing_unique t l : ordered_listing t l → l = select_ordered t.
Proof.
  intros [Hel Hs].
  apply (StronglySorted_unique_strong rotation_lt);
    [|done|apply select_ordered_sorted|].
  - intros x y _ _ Hxy Hyx.
    destruct (irreflexivity rotation_lt x). by trans y.
  - apply NoDup_Permutation;
      [by apply strict_sorted_NoDup|apply strict_sorted_NoDup, select_ordered_sorted|].
    intros s. by rewrite Hel, select_ordered_elem.
Qed.

(** [findIndex] on a listing with distinct identities. *)
Lemma findIndex_lookup l i s :
  NoDup l.*1 → l !! i = Some s →
  list_find (λ s', strict_eq (email s') (JsString (email s))) l = Some (i, s).
Proof.
  intros Hnd Hi. apply list_find_Some. split_and!; [done..|].
  intros j y Hj Hlt [= Heq].
  assert (i = j); [|lia].
  apply (NoDup_lookup _ _ _ (email s) Hnd);
    rewrite list_lookup_fmap; [by rewrite Hi|by rewrite Hj; simpl; f_equal].
Qed.

Lemma findIndex_absent t e :
  t !! e = None →
  list_find (λ s', strict_eq (email s') (JsString e)) (select_ordered t) = None.
Proof.
  intros Hnone. apply list_find_None, Forall_forall. intros s Hs [= Heq].
  apply select_ordered_elem in Hs. rewrite Heq in Hs. congruence.
Qed.

(** No row is found for a value that is not a string. *)
Lemma findIndex_other l truthy text :
  list_find (λ s', strict_eq (email s') (JsOther truthy text)) l = None.
Proof. by apply list_find_None, Forall_forall. Qed.

End Listing.

(** ** Rotation: [getNextSession] *)

Section Rotation.
Implicit Types (w : World) (s : Session).

Lemma getNextSession_pure cur w : ∃ r, getNextSession cur w = Ok r w.
Proof.
  unfold getNextSession. run_prog.
  repeat case_match; eauto.
Qed.

Lemma getNextSession_empty cur w :
  sessions w = ∅ → getNextSession cur w = Ok None w.
Proof.
  intros Hw. unfold getNextSession. run_prog.
  by rewrite Hw, select_ordered_empty.
Qed.

Lemma getNextSession_single cur w k r :
  sessions w = {[k := r]} → getNextSession cur w = Ok (Some (k, r)) w.
Proof.
  intros Hw. unfold getNextSession. run_prog.
  by rewrite Hw, select_ordered_singleton.
Qed.

(** Without a current identity, with one that is not a string, or with
    one that is not stored, the result is the head of the listing. *)
Lemma getNextSession_first cur w :
  (∀ e, cur = Some (JsString e) → sessions w !! e = None) →
  getNextSession cur w = Ok (head (select_ordered (sessions w))) w.
Proof.
  intros Hcur. unfold getNextSession. run_prog.
  rewrite <-!head_lookup.
  case_bool_decide as H0.
  { apply length_zero_iff_nil in H0. by rewrite H0. }
  case_bool_decide; [done|].
  destruct cur as [v|]; [|done]. simpl.
  destruct (js_falsy v); [done|].
  destruct v as [e|t x].
  - by rewrite (findIndex_absent _ _ (Hcur e eq_refl)).
  - by rewrite findIndex_other.
Qed.

(** The guard [!currentEmail] takes the empty string for no identity at
    all, whether or not a row is stored under it. *)
Lemma getNextSession_empty_identity w :
  getNextSession (Some (JsString EmptyString)) w
  = Ok (head (select_ordered (sessions w))) w.
Proof.
  unfold getNextSession. run_prog. rewrite <-!head_lookup.
  case_bool_decide as H0; [|by case_bool_decide].
  apply length_zero_iff_nil in H0. by rewrite H0.
Qed.

Lemma getNextSession_successor w i s :
  email s ≠ EmptyString →
  select_ordered (sessions w) !! i = Some s →
  getNextSession (Some (JsString (email s))) w
  = Ok (select_ordered (sessions w)
          !! (S i `mod` length (select_ordered (sessions w)))%nat) w.
Proof.
  intros Hne Hi. unfold getNextSession. run_prog.
  pose proof (lookup_lt_Some _ _ _ Hi) as Hlen.
  case_bool_decide; [lia|].
  case_bool_decide as H1.
  { rewrite H1 in *. by rewrite Nat.mod_1_r. }
  unfold falsy. rewrite bool_decide_false by done.
  rewrite (findIndex_lookup _ i s); [|apply select_ordered_NoDup|done].
  by rewrite Nat.add_1_r.
Qed.

End Rotation.

Section RotationCycle.
Implicit Types (w : World) (s : Session).

(** C1: [getNextSession] never changes the world and, on a repository
    that stores no session under the empty identity, its result [r] is:
    nothing when the repository is empty; the session when there is
    exactly one; the head of the listing in rotation order ([last_used]
    ascending, then identity ascending) when no current identity is given
    or the given one is not stored; and otherwise the element after the
    current identity's position in that listing, index 0 following the
    last.  An argument that is not a string is no stored identity: the
    result is the head of the listing. *)
Theorem getNextSession_rotation w (cur : option JsValue) :
  identities_nonempty (sessions w) →
  ∃ (r : option Session) (l : list Session),
    getNextSession cur w = Ok r w
    ∧ ordered_listing (sessions w) l
    ∧ (sessions w = ∅ → r = None)
    ∧ (∀ k row, sessions w = {[k := row]} → r = Some (k, row))
    ∧ (cur = None ∨ (∃ e, cur = Some (JsString e) ∧ sessions w !! e = None) →
         r = head l)
    ∧ (∀ e i s, cur = Some (JsString e) → l !! i = Some s → email s = e →
         r = l !! (S i `mod` length l)%nat)
    ∧ (∀ truthy text, cur = Some (JsOther truthy text) → r = head l).
Proof.
  intros Hne. destruct (getNextSession_pure cur w) as [r Hr].
  exists r, (select_ordered (sessions w)).
  split_and!; [done|apply ordered_listing_select|..].
  - intros Hw. rewrite (getNextSession_empty cur w Hw) in Hr. congruence.
  - intros k row Hw. rewrite (getNextSession_single cur w k row Hw) in Hr. congruence.
  - intros Hcur. rewrite (getNextSession_first cur w) in Hr; [congruence|].
    intros e ->. destruct Hcur as [|(e' & [= <-] & Hnone)]; done.
  - intros e i s -> Hi <-.
    rewrite (getNextSession_successor w i s) in Hr; [congruence| |done].
    intros Hempty. apply select_ordered_lookup in Hi.
    unfold identities_nonempty in Hne. congruence.
  - intros t x ->. rewrite (getNextSession_first _ w) in Hr; [congruence|done].
Qed.

Lemma rotate_lookup {A} (l : list A) (i k : nat) :
  (k < length l)%nat → rotate i l !! k = l !! ((i + k) `mod` length l)%nat.
Proof.
  intros Hk. rewrite lookup_rotate_r by done. f_equal.
  unfold rotate_nat_add.
  rewrite <-Nat2Z.inj_add, <-Nat2Z.inj_mod. apply Nat2Z.id.
Qed.

Lemma rotate_perm {A} (l : list A) (i : nat) : rotate i l ≡ₚ l.
Proof.
  unfold rotate. rewrite Permutation_app_comm. by rewrite take_drop.
Qed.

Lemma successor_lookup w i s :
  identities_nonempty (sessions w) →
  select_ordered (sessions w) !! i = Some s →
  successor w (email s)
  = (select_ordered (sessions w)).*1
      !! (S i `mod` length (select_ordered (sessions w)))%nat.
Proof.
  intros Hne Hi. unfold successor.
  rewrite (getNextSession_successor w i s); [|..|done].
  - rewrite list_lookup_fmap. by destruct (_ !! _).
  - intros Hempty. apply select_ordered_lookup in Hi.
    unfold identities_nonempty in Hne. congruence.
Qed.

(** After [k] steps from position [i] the rotation is at position
    [(i + k) mod N]. *)
Lemma successor_iter_lookup w i s k :
  identities_nonempty (sessions w) →
  select_ordered (sessions w) !! i = Some s →
  successor_iter w k (email s)
  = (select_ordered (sessions w)).*1
      !! ((i + k) `mod` length (select_ordered (sessions w)))%nat.
Proof.
  intros Hne Hi. pose proof (lookup_lt_Some _ _ _ Hi) as Hlen.
  induction k as [|k IH]; simpl.
  - rewrite Nat.add_0_r, Nat.mod_small by done.
    rewrite list_lookup_fmap, Hi. done.
  - rewrite IH. rewrite list_lookup_fmap.
    pose proof (Nat.mod_upper_bound (i + k) (length (select_ordered (sessions w)))) as Hj.
    set (j := ((i + k) `mod` length (select_ordered (sessions w)))%nat) in *.
    destruct (select_ordered (sessions w) !! j) as [s'|] eqn:Hs'; simpl.
    + change (successor w s'.1) with (successor w (email s')).
      rewrite (successor_lookup w _ s' Hne Hs'). f_equal. unfold j.
      rewrite <-Nat.add_1_r, Nat.Div0.add_mod_idemp_l. f_equal. lia.
    + apply lookup_ge_None in Hs'. lia.
Qed.

(** C3: on a repository without an empty identity, starting from any
    stored session [e], the successor map returns to [e] after exactly
    [N = size] steps, not earlier, and the [N] identities met on the way
    are the stored ones, each exactly once. *)
Theorem rotation_is_a_cycle w (e : string) :
  identities_nonempty (sessions w) →
  is_Some (sessions w !! e) →
  let N := size (sessions w) in
  (1 ≤ N)%nat
  ∧ successor_iter w N e = Some e
  ∧ (∀ k, (0 < k < N)%nat → successor_iter w k e ≠ Some e)
  ∧ ∃ visited : list string,
      length visited = N
      ∧ (∀ k, (k < N)%nat → successor_iter w k e = visited !! k)
      ∧ NoDup visited
      ∧ (∀ k, k ∈ visited ↔ is_Some (sessions w !! k)).
Proof.
  intros Hne [row He] N.
  set (l := select_ordered (sessions w)).
  assert (length l = N) as Hlen by apply select_ordered_length.
  assert ((e, row) ∈ l) as Hin by by apply select_ordered_elem.
  apply list_elem_of_lookup in Hin as [i Hi].
  pose proof (lookup_lt_Some _ _ _ Hi) as Hi_lt.
  pose proof (successor_iter_lookup w i (e, row)) as Hiter.
  simpl in Hiter. fold l in Hiter. rewrite Hlen in Hiter.
  assert (NoDup l.*1) as Hnd by apply select_ordered_NoDup.
  assert (l.*1 !! i = Some e) as Hie by by rewrite list_lookup_fmap, Hi.
  split_and!.
  - lia.
  - rewrite Hiter by done.
    rewrite <-(Nat.mul_1_l N) at 1. rewrite Nat.Div0.mod_add, Nat.mod_small by lia.
    done.
  - intros k Hk. rewrite Hiter by done. intros Hback.
    pose proof (NoDup_lookup _ _ _ _ Hnd Hback Hie) as Heq.
    destruct (decide (i + k < N)%nat).
    + rewrite Nat.mod_small in Heq by done. lia.
    + assert ((i + k) `mod` N = i + k - N)%nat as Hmod.
      { symmetry. apply (Nat.mod_unique _ _ 1); lia. }
      lia.
  - exists (rotate i l.*1). split_and!.
    + by rewrite length_rotate, length_fmap.
    + intros k Hk. rewrite Hiter by done.
      rewrite rotate_lookup by (rewrite length_fmap; lia).
      by rewrite length_fmap, Hlen.
    + by rewrite rotate_perm.
    + intros k. rewrite elem_of_rotate, list_elem_of_fmap. split.
      * intros ([k' r'] & -> & Hk'). apply select_ordered_elem in Hk'. eauto.
      * intros [r' Hr']. exists (k, r'). split; [done|].
        by apply select_ordered_elem.
Qed.

End RotationCycle.

(** ** Reading the live store and synchronising *)

Section Sync.
Context `{!JsonParser}.
Implicit Types (w : World) (c : Current).

Lemma getCurrentSession_unfold w :
  getCurrentSession w =
  match live w with
  | None => Uncaught w
  | Some t =>
      match t !! AUTH_KEY with
      | None => Ok None w
      | Some value =>
          match JSON_parse_email value with
          | None => Ok None (print ErrParsingCurrent w)
          | Some email =>
              match js_truthy_opt email with
              | None => Ok None w
              | Some e =>
                  Ok (Some (mkCurrent e value
                              (default "{}" (truthy_opt (t !! GOOGLE_KEY))))) w
              end
          end
      end
  end.
Proof.
  unfold getCurrentSession. run_prog.
  destruct (live w) as [t|] eqn:Hlive; [|done].
  rewrite Hlive. simpl. repeat case_match; by rewrite ?Hlive.
Qed.

(** What a successful read of the live store tells. *)
Lemma getCurrentSession_Some w c w' :
  getCurrentSession w = Ok (Some c) w' →
  w' = w
  ∧ ∃ t, live w = Some t
      ∧ t !! AUTH_KEY = Some (cur_auth_status c)
      ∧ JSON_parse_email (cur_auth_status c) = Some (Some (cur_email c))
      ∧ sql_text (cur_email c) ≠ EmptyString
      ∧ cur_google_data c = default "{}" (truthy_opt (t !! GOOGLE_KEY))
      ∧ cur_google_data c ≠ EmptyString
      ∧ js_falsy (cur_email c) = false.
Proof.
  rewrite getCurrentSession_unfold.
  destruct (live w) as [t|] eqn:Hlive; [|done].
  destruct (t !! AUTH_KEY) as [value|] eqn:Hauth; [|done].
  destruct (JSON_parse_email value) as [[e|]|] eqn:Hparse; simpl; try done.
  destruct (js_falsy e) eqn:He; [done|].
  intros [= <- <-]. split; [done|]. exists t. simpl. split_and!; try done.
  - by apply (JSON_email_text value).
  - destruct (t !! GOOGLE_KEY) as [g|]; simpl; [|done].
    unfold falsy. by case_bool_decide.
Qed.

(** A failed read leaves both stores alone. *)
Lemma getCurrentSession_None w w' :
  getCurrentSession w = Ok None w' →
  live w' = live w ∧ sessions w' = sessions w
  ∧ (console w' = console w ∨ console w' = console w ++ [ErrParsingCurrent]).
Proof.
  rewrite getCurrentSession_unfold.
  repeat case_match; intros; simplify_eq/=; auto.
Qed.

Lemma getCurrentSession_no_exit w code w' :
  getCurrentSession w ≠ Exited code w'.
Proof. rewrite getCurrentSession_unfold. repeat case_match; done. Qed.

Lemma getCurrentSession_Uncaught w w' :
  getCurrentSession w = Uncaught w' → w' = w ∧ live w = None.
Proof.
  rewrite getCurrentSession_unfold.
  repeat case_match; intros; by simplify_eq/=.
Qed.

(** The read depends on the live store only. *)
Lemma getCurrentSession_frame w1 w2 c :
  live w1 = live w2 →
  getCurrentSession w1 = Ok (Some c) w1 → getCurrentSession w2 = Ok (Some c) w2.
Proof.
  rewrite !getCurrentSession_unfold. intros <-.
  repeat case_match; intros; by simplify_eq/=.
Qed.

Lemma syncCurrent_unfold now w :
  syncCurrent now w =
  match getCurrentSession w with
  | Ok None w' => Ok tt (print LogNoActiveSession w')
  | Ok (Some c) w' =>
      match sessions w' !! sql_text (cur_email c) with
      | Some r =>
          if bool_decide (auth_status r ≠ cur_auth_status c)
             || bool_decide (google_data r ≠ cur_google_data c)
          then Ok tt (print (LogUpdated (cur_email c))
                        (set_sessions
                           (alter (set_blobs (cur_auth_status c)
                                     (cur_google_data c) now)
                              (sql_text (cur_email c)) (sessions w')) w'))
          else Ok tt (print (LogUpToDate (cur_email c)) w')
      | None =>
          Ok tt (print (LogAdded (cur_email c))
                   (set_sessions
                      (<[sql_text (cur_email c) :=
                           new_row (cur_auth_status c) (cur_google_data c) now]>
                         (sessions w')) w'))
      end
  | Uncaught w' => Uncaught w'
  | Exited code w' => Exited code w'
  end.
Proof.
  unfold syncCurrent. unfold mbind at 1, M_bind at 1, bind at 1.
  destruct (getCurrentSession w) as [[c|] w'| |]; try done.
  run_prog. destruct (sessions w' !! sql_text (cur_email c)) as [r|] eqn:Hr; simpl;
    [|by rewrite Hr].
  by case_match.
Qed.

Lemma sync_result_print w m w' :
  console w' = console w → sync_result w (Ok tt (print m w')) = sync_result_of m.
Proof.
  intros Hc. unfold sync_result, printed. simpl. rewrite Hc.
  by rewrite drop_app_length.
Qed.

Lemma last_drop_snoc {A} (l : list A) (x : A) (n : nat) :
  (n ≤ length l)%nat → last (drop n (l ++ [x])) = Some x.
Proof.
  intros Hn. rewrite drop_app_le by done. apply last_snoc.
Qed.

Lemma alter_as_insert (f : Row → Row) (t : gmap string Row) k r :
  t !! k = Some r → alter f k t = <[k := f r]> t.
Proof.
  intros Hk. apply map_eq. intros k'.
  destruct (decide (k = k')) as [<-|Hne].
  - by rewrite lookup_alter_eq, lookup_insert_eq, Hk.
  - by rewrite lookup_alter_ne, lookup_insert_ne.
Qed.

Lemma syncCurrent_none w now w' :
  getCurrentSession w = Ok None w' →
  ∃ w'', syncCurrent now w = Ok tt w''
    ∧ sync_result w (syncCurrent now w) = Some NoActiveSession
    ∧ live w'' = live w ∧ sessions w'' = sessions w.
Proof.
  intros Hcur. rewrite syncCurrent_unfold, Hcur.
  destruct (getCurrentSession_None _ _ Hcur) as (Hl & Hs & Hc).
  eexists. split_and!; [done| |done..].
  unfold sync_result, printed. simpl.
  destruct Hc as [-> | ->].
  - by rewrite last_drop_snoc.
  - rewrite last_drop_snoc; [done|]. rewrite length_app. lia.
Qed.

Lemma syncCurrent_added w now c w' :
  getCurrentSession w = Ok (Some c) w' →
  sessions w !! sql_text (cur_email c) = None →
  ∃ w'', syncCurrent now w = Ok tt w''
    ∧ sync_result w (syncCurrent now w) = Some (Added (cur_email c))
    ∧ live w'' = live w
    ∧ console w'' = console w ++ [LogAdded (cur_email c)]
    ∧ sessions w'' =
        <[sql_text (cur_email c) :=
            mkRow None (cur_auth_status c) (cur_google_data c) 0 now now]>
          (sessions w).
Proof.
  intros Hcur Hnone. rewrite syncCurrent_unfold, Hcur.
  destruct (getCurrentSession_Some _ _ _ Hcur) as [-> _].
  rewrite Hnone. eexists. split_and!; [done| |done..].
  by rewrite sync_result_print.
Qed.

Lemma syncCurrent_updated w now c w' r :
  getCurrentSession w = Ok (Some c) w' →
  sessions w !! sql_text (cur_email c) = Some r →
  auth_status r ≠ cur_auth_status c ∨ google_data r ≠ cur_google_data c →
  ∃ w'', syncCurrent now w = Ok tt w''
    ∧ sync_result w (syncCurrent now w) = Some (Updated (cur_email c))
    ∧ live w'' = live w
    ∧ console w'' = console w ++ [LogUpdated (cur_email c)]
    ∧ sessions w'' =
        <[sql_text (cur_email c) :=
            mkRow (name r) (cur_auth_status c) (cur_google_data c)
              (last_used r) (created_at r) now]>
          (sessions w).
Proof.
  intros Hcur Hr Hdiff. rewrite syncCurrent_unfold, Hcur.
  destruct (getCurrentSession_Some _ _ _ Hcur) as [-> _].
  rewrite Hr.
  assert (bool_decide (auth_status r ≠ cur_auth_status c)
          || bool_decide (google_data r ≠ cur_google_data c) = true) as ->.
  { apply orb_true_iff. rewrite !bool_decide_eq_true. done. }
  eexists. split_and!; [done| |done..|].
  - by rewrite sync_result_print.
  - simpl. by rewrite (alter_as_insert _ _ _ r).
Qed.

Lemma syncCurrent_unchanged w now c w' r :
  getCurrentSession w = Ok (Some c) w' →
  sessions w !! sql_text (cur_email c) = Some r →
  auth_status r = cur_auth_status c → google_data r = cur_google_data c →
  ∃ w'', syncCurrent now w = Ok tt w''
    ∧ sync_result w (syncCurrent now w) = Some (Unchanged (cur_email c))
    ∧ live w'' = live w ∧ sessions w'' = sessions w.
Proof.
  intros Hcur Hr Ha Hg. rewrite syncCurrent_unfold, Hcur.
  destruct (getCurrentSession_Some _ _ _ Hcur) as [-> _].
  rewrite Hr.
  rewrite !bool_decide_false by (by intros ?). simpl.
  eexists. split_and!; [done| |done..].
  by rewrite sync_result_print.
Qed.

(** C2: the four outcomes of [syncCurrent].  When the read of the live
    store yields nothing it reports [NoActiveSession] and leaves both
    stores as they were; a read identity that is not stored is inserted
    with [last_used = 0] and [created_at = updated_at = now] ([Added]);
    a stored one whose auth blob or secondary blob is not the very same
    string gets both blobs and [updated_at] replaced ([Updated]);
    otherwise nothing is written ([Unchanged]). *)
Theorem syncCurrent_outcomes w now :
  (∀ w', getCurrentSession w = Ok None w' →
     ∃ w'', syncCurrent now w = Ok tt w''
       ∧ sync_result w (syncCurrent now w) = Some NoActiveSession
       ∧ live w'' = live w ∧ sessions w'' = sessions w)
  ∧ (∀ c w', getCurrentSession w = Ok (Some c) w' →
     sessions w !! sql_text (cur_email c) = None →
     ∃ w'', syncCurrent now w = Ok tt w''
       ∧ sync_result w (syncCurrent now w) = Some (Added (cur_email c))
       ∧ live w'' = live w
       ∧ sessions w'' =
           <[sql_text (cur_email c) :=
               mkRow None (cur_auth_status c) (cur_google_data c) 0 now now]>
             (sessions w))
  ∧ (∀ c w' r, getCurrentSession w = Ok (Some c) w' →
     sessions w !! sql_text (cur_email c) = Some r →
     auth_status r ≠ cur_auth_status c ∨ google_data r ≠ cur_google_data c →
     ∃ w'', syncCurrent now w = Ok tt w''
       ∧ sync_result w (syncCurrent now w) = Some (Updated (cur_email c))
       ∧ live w'' = live w
       ∧ sessions w'' =
           <[sql_text (cur_email c) :=
               mkRow (name r) (cur_auth_status c) (cur_google_data c)
                 (last_used r) (created_at r) now]>
             (sessions w))
  ∧ (∀ c w' r, getCurrentSession w = Ok (Some c) w' →
     sessions w !! sql_text (cur_email c) = Some r →
     auth_status r = cur_auth_status c → google_data r = cur_google_data c →
     ∃ w'', syncCurrent now w = Ok tt w''
       ∧ sync_result w (syncCurrent now w) = Some (Unchanged (cur_email c))
       ∧ live w'' = live w ∧ sessions w'' = sessions w).
Proof.
  split_and!.
  - apply syncCurrent_none.
  - intros c w' Hcur Hnone.
    destruct (syncCurrent_added w now c w' Hcur Hnone) as (w'' & ? & ? & ? & ? & ?).
    eauto 10.
  - intros c w' r Hcur Hr Hd.
    destruct (syncCurrent_updated w now c w' r Hcur Hr Hd) as (w'' & ? & ? & ? & ? & ?).
    eauto 10.
  - apply syncCurrent_unchanged.
Qed.

(** C8: on the update path of [syncCurrent] the matched row keeps
    [created_at], [last_used] (and [name]); only its two blobs and
    [updated_at] are replaced.  The rows of all other identities, and the
    live store, are as before. *)
Theorem update_path_frame w now c w' r :
  getCurrentSession w = Ok (Some c) w' →
  sessions w !! sql_text (cur_email c) = Some r →
  auth_status r ≠ cur_auth_status c ∨ google_data r ≠ cur_google_data c →
  ∃ w'' r',
    syncCurrent now w = Ok tt w''
    ∧ console w'' = console w ++ [LogUpdated (cur_email c)]
    ∧ sessions w'' !! sql_text (cur_email c) = Some r'
    ∧ auth_status r' = cur_auth_status c
    ∧ google_data r' = cur_google_data c
    ∧ updated_at r' = now
    ∧ created_at r' = created_at r
    ∧ last_used r' = last_used r
    ∧ name r' = name r
    ∧ (∀ k, k ≠ sql_text (cur_email c) → sessions w'' !! k = sessions w !! k)
    ∧ live w'' = live w.
Proof.
  intros Hcur Hr Hdiff.
  destruct (syncCurrent_updated w now c w' r Hcur Hr Hdiff)
    as (w'' & Hrun & _ & Hlive & Hcons & Hs).
  exists w'', (mkRow (name r) (cur_auth_status c) (cur_google_data c)
                 (last_used r) (created_at r) now).
  rewrite Hs. split_and!; try done.
  - apply lookup_insert_eq.
  - intros k Hk. by rewrite lookup_insert_ne.
Qed.

(** Once the stored blobs are those of the live store, every further
    call reports [Unchanged] and writes nothing. *)
Lemma sync_calls_settled w c r nows :
  getCurrentSession w = Ok (Some c) w →
  sessions w !! sql_text (cur_email c) = Some r →
  auth_status r = cur_auth_status c → google_data r = cur_google_data c →
  sync_calls nows w = replicate (length nows) (Some (Unchanged (cur_email c))).
Proof.
  revert w. induction nows as [|now nows IH]; intros w Hcur Hr Ha Hg; [done|].
  destruct (syncCurrent_unchanged w now c w r Hcur Hr Ha Hg)
    as (w'' & Hrun & Hres & Hl & Hs).
  simpl. rewrite Hres. f_equal. rewrite Hrun. simpl.
  apply IH; [|by rewrite Hs|done..].
  by apply (getCurrentSession_frame w).
Qed.

(** C5: with a parseable identity in the live store, in a run of
    consecutive [syncCurrent] calls every call after the first reports
    [Unchanged]; the first reports [Added] exactly when the identity was
    not stored before. *)
Theorem repeated_sync_settles w c w' now nows :
  getCurrentSession w = Ok (Some c) w' →
  ∃ first,
    sync_calls (now :: nows) w
    = first :: replicate (length nows) (Some (Unchanged (cur_email c)))
    ∧ (first = Some (Added (cur_email c)) ↔ sessions w !! sql_text (cur_email c) = None)
    ∧ (first = Some (Added (cur_email c)) ∨ first = Some (Updated (cur_email c))
       ∨ first = Some (Unchanged (cur_email c))).
Proof.
  intros Hcur. pose proof (getCurrentSession_Some _ _ _ Hcur) as [-> _].
  exists (sync_result w (syncCurrent now w)). simpl.
  destruct (sessions w !! sql_text (cur_email c)) as [r|] eqn:Hr.
  - destruct (decide (auth_status r = cur_auth_status c
                      ∧ google_data r = cur_google_data c)) as [[Ha Hg]|Hdiff].
    + destruct (syncCurrent_unchanged w now c w r Hcur Hr Ha Hg)
        as (w'' & Hrun & Hres & Hl & Hs).
      rewrite Hres, Hrun. simpl. split_and!; [|done|auto].
      f_equal. apply (sync_calls_settled _ c r); [|by rewrite Hs|done..].
      by apply (getCurrentSession_frame w).
    + assert (auth_status r ≠ cur_auth_status c
              ∨ google_data r ≠ cur_google_data c) as Hd.
      { destruct (decide (auth_status r = cur_auth_status c)); [|by left].
        destruct (decide (google_data r = cur_google_data c)); [|by right].
        by destruct Hdiff. }
      destruct (syncCurrent_updated w now c w r Hcur Hr Hd)
        as (w'' & Hrun & Hres & Hl & _ & Hs).
      rewrite Hres, Hrun. simpl. split_and!; [|done|auto].
      f_equal. eapply (sync_calls_settled _ c);
        [by apply (getCurrentSession_frame w)
        |rewrite Hs; apply lookup_insert_eq|done..].
  - destruct (syncCurrent_added w now c w Hcur Hr)
      as (w'' & Hrun & Hres & Hl & _ & Hs).
    rewrite Hres, Hrun. simpl. split_and!; [|done|auto].
    f_equal. eapply (sync_calls_settled _ c);
      [by apply (getCurrentSession_frame w)
      |rewrite Hs; apply lookup_insert_eq|done..].
Qed.

End Sync.

(** ** Loading and deleting *)

Section Load.
Context `{!JsonParser}.
Implicit Types (w : World).

Lemma loadSession_unfold e now w :
  loadSession e now w =
  match sessions w !! e with
  | None => Ok tt (print (ErrSessionNotFound e) w)
  | Some r =>
      match live w with
      | None => Uncaught w
      | Some t =>
          Ok tt (print LogPleaseReload (print (LogLoaded e)
            (mkWorld
               (Some (<[GOOGLE_KEY := google_data r]>
                        (<[AUTH_KEY := auth_status r]> t)))
               (alter (set_last_used now) e (sessions w))
               (console w))))
      end
  end.
Proof.
  unfold loadSession. run_prog.
  destruct (sessions w !! e) as [r|]; simpl; [|done].
  destruct (live w) as [t|]; simpl; done.
Qed.

Lemma deleteSession_unfold e w :
  deleteSession e w
  = Ok tt (print (LogDeleted e) (set_sessions (delete e (sessions w)) w)).
Proof. done. Qed.

(** C7: loading an identity that is not stored prints the not-found
    error on standard error and does nothing else: the live store (whether
    usable or not) and every row of the repository are as before. *)
Theorem load_absent_no_effect w e now :
  sessions w !! e = None →
  ∃ w', loadSession e now w = Ok tt w'
    ∧ console w' = console w ++ [ErrSessionNotFound e]
    ∧ on_stderr (ErrSessionNotFound e) = true
    ∧ live w' = live w
    ∧ sessions w' = sessions w.
Proof.
  intros Hnone. rewrite loadSession_unfold, Hnone. by eexists.
Qed.

(** C6, amended: for a non-empty identity that is not stored, [load]
    prints the not-found error on standard error and [delete] prints
    its usual confirmation on standard output; neither crashes, neither
    changes the repository or the live store, and both leave the process
    to end with status 0. *)
Theorem cli_missing_identity w e now1 now2 :
  e ≠ EmptyString → sessions w !! e = None →
  (∃ w', main (CmdLoad (Some e)) now1 now2 w = Ok tt w'
     ∧ console w' = console w ++ [ErrSessionNotFound e]
     ∧ on_stderr (ErrSessionNotFound e) = true
     ∧ live w' = live w ∧ sessions w' = sessions w)
  ∧ crashed (main (CmdLoad (Some e)) now1 now2 w) = false
  ∧ exit_status (main (CmdLoad (Some e)) now1 now2 w) = 0
  ∧ (∃ w', main (CmdDelete (Some e)) now1 now2 w = Ok tt w'
     ∧ console w' = console w ++ [LogDeleted e]
     ∧ on_stderr (LogDeleted e) = false
     ∧ live w' = live w ∧ sessions w' = sessions w)
  ∧ crashed (main (CmdDelete (Some e)) now1 now2 w) = false
  ∧ exit_status (main (CmdDelete (Some e)) now1 now2 w) = 0.
Proof.
  intros Hne Hnone. unfold main, loadByEmail. simpl.
  unfold falsy. rewrite bool_decide_false by done.
  rewrite loadSession_unfold, deleteSession_unfold, Hnone. simpl.
  split_and!; try done.
  - by eexists.
  - eexists. split_and!; try done. simpl. by apply delete_id.
Qed.

End Load.

(** ** What an invocation writes to the repository *)

Section Writes.
Context `{!JsonParser}.
Implicit Types (w : World) (t : gmap string Row).

Lemma getCurrentSession_current_ok w c w' :
  getCurrentSession w = Ok (Some c) w' → current_ok c.
Proof.
  intros Hcur.
  destruct (getCurrentSession_Some _ _ _ Hcur)
    as (_ & t & _ & _ & ? & _ & _ & ? & ?).
  done.
Qed.

Lemma getCurrentSession_world w :
  live (world_of (getCurrentSession w)) = live w
  ∧ sessions (world_of (getCurrentSession w)) = sessions w.
Proof. rewrite getCurrentSession_unfold. by repeat case_match. Qed.

Lemma syncCurrent_world now w :
  live (world_of (syncCurrent now w)) = live w
  ∧ (sessions (world_of (syncCurrent now w)) = sessions w
     ∨ repo_write now (sessions w) (sessions (world_of (syncCurrent now w)))).
Proof.
  rewrite syncCurrent_unfold.
  destruct (getCurrentSession w) as [[c|] w'| |] eqn:Hcur.
  - pose proof (getCurrentSession_current_ok _ _ _ Hcur) as Hok.
    destruct (getCurrentSession_Some _ _ _ Hcur) as [-> _].
    destruct (sessions w !! sql_text (cur_email c)) as [r|] eqn:Hr; [case_match|]; simpl;
      (split; [done|]); [right|by left|right]; by constructor.
  - destruct (getCurrentSession_None _ _ Hcur) as (? & ? & _). simpl. auto.
  - by destruct (getCurrentSession_Uncaught _ _ Hcur) as [-> _]; auto.
  - by destruct (getCurrentSession_no_exit w code w0).
Qed.

Lemma loadSession_world e now w :
  sessions (world_of (loadSession e now w)) = sessions w
  ∨ sessions (world_of (loadSession e now w))
    = alter (set_last_used now) e (sessions w).
Proof. rewrite loadSession_unfold. repeat case_match; simpl; auto. Qed.

Lemma next_world now1 now2 w :
  ∃ t1,
    (t1 = sessions w ∨ repo_write now1 (sessions w) t1)
    ∧ (sessions (world_of (next now1 now2 w)) = t1
       ∨ ∃ e, sessions (world_of (next now1 now2 w))
              = alter (set_last_used now2) e t1).
Proof.
  exists (sessions (world_of (syncCurrent now1 (print LogSyncing w)))).
  split; [apply (syncCurrent_world now1 (print LogSyncing w))|].
  cut (∀ res, next now1 now2 w = res →
         sessions (world_of res)
         = sessions (world_of (syncCurrent now1 (print LogSyncing w)))
         ∨ ∃ e, sessions (world_of res)
             = alter (set_last_used now2) e
                 (sessions (world_of (syncCurrent now1 (print LogSyncing w)))));
    [by eauto|].
  intros res. unfold next.
  unfold mbind at 1, M_bind at 1, bind at 1. simpl.
  unfold mbind at 1, M_bind at 1, bind at 1.
  destruct (syncCurrent now1 (print LogSyncing w)) as [[] w1|w1|code w1];
    simpl; [|by intros <-; left..].
  unfold mbind at 1, M_bind at 1, bind at 1.
  pose proof (getCurrentSession_world w1) as [_ Hcur].
  destruct (getCurrentSession w1) as [current w2|w2|code w2];
    simpl in Hcur; [|by intros <-; left..].
  rewrite <-Hcur.
  unfold mbind at 1, M_bind at 1, bind at 1.
  destruct (getNextSession_pure (cur_email <$> current) w2) as [nextSession ->].
  destruct nextSession as [nextSession|]; [|by intros <-; left].
  assert (∀ m res,
            (console_log m;; loadSession (email nextSession) now2) w2 = res →
            sessions (world_of res) = sessions w2
            ∨ ∃ e, sessions (world_of res)
                = alter (set_last_used now2) e (sessions w2)) as Hload.
  { intros m ? <-. unfold mbind, M_bind, bind. simpl.
    destruct (loadSession_world (email nextSession) now2 (print m w2)); eauto. }
  destruct current as [current|]; [|apply Hload].
  case_bool_decide; [by intros <-; left|apply Hload].
Qed.

(** Every invocation changes the repository by a sequence of at most two
    single-row writes. *)
Lemma main_writes command now1 now2 w :
  rtc (repo_write now1) (sessions w)
    (sessions (world_of (main command now1 now2 w))).
Proof.
  destruct command as [| |arg|arg]; simpl.
  - destruct (next_world now1 now2 w) as (t1 & H1 & H2).
    assert (rtc (repo_write now1) (sessions w) t1) as Hrtc.
    { destruct H1 as [->|?]; [done|by apply rtc_once]. }
    destruct H2 as [->|[e ->]]; [done|].
    eapply rtc_r; [done|constructor].
  - destruct (syncCurrent_world now1 w) as [_ [->|?]]; [done|by apply rtc_once].
  - destruct (truthy_opt arg) as [e|]; [|done].
    unfold loadByEmail.
    destruct (loadSession_world e now1 w) as [->| ->]; [done|].
    apply rtc_once. constructor.
  - destruct (truthy_opt arg) as [e|]; [|done].
    rewrite deleteSession_unfold. simpl. apply rtc_once. constructor.
Qed.

Lemma step_writes ev w :
  ∃ now, rtc (repo_write now) (sessions w) (sessions (step ev w)).
Proof.
  destruct ev as [c now1 now2|store]; simpl.
  - exists now1. apply main_writes.
  - by exists 0.
Qed.

End Writes.

(** ** Invariants of the repository *)

Section Invariants.
Context `{!JsonParser}.
Implicit Types (w : World) (t : gmap string Row).

Lemma run_cons ev evs w : run (ev :: evs) w = run evs (step ev w).
Proof. done. Qed.

Lemma run_app evs1 evs2 w : run (evs1 ++ evs2) w = run evs2 (run evs1 w).
Proof. apply foldl_app. Qed.

Lemma repo_write_row_written now t t' :
  repo_write now t t' → map_Forall row_written t → map_Forall row_written t'.
Proof.
  intros Hw Hinv.
  assert (∀ c, current_ok c → ∀ r, auth_status r = cur_auth_status c →
            google_data r = cur_google_data c →
            row_written (sql_text (cur_email c)) r) as Hcur.
  { intros c (Hf & Hp & Hg) r Ha Hgd. split_and!.
    - by apply (JSON_email_text (cur_auth_status c)).
    - exists (cur_email c). by rewrite Ha.
    - by rewrite Hgd. }
  destruct Hw as [t c Hc Hnone|t c Hc|t e now'|t e]; intros k r.
  - rewrite lookup_insert. case_decide as Hk; [|by apply Hinv].
    intros [= <-]. subst k. by apply Hcur.
  - rewrite lookup_alter. case_decide as Hk; [|by apply Hinv].
    destruct (t !! sql_text (cur_email c)) as [r0|] eqn:Hr0; simpl; [|done].
    intros [= <-]. subst k. by apply Hcur.
  - rewrite lookup_alter. case_decide as Hk; [|by apply Hinv]. subst k.
    destruct (t !! e) as [r0|] eqn:Hr0; simpl; [|done].
    intros [= <-]. by destruct (Hinv e r0 Hr0) as (? & ? & ?).
  - rewrite lookup_delete. case_decide; [done|by apply Hinv].
Qed.

Lemma writes_row_written now t t' :
  rtc (repo_write now) t t' →
  map_Forall row_written t → map_Forall row_written t'.
Proof. induction 1; eauto using repo_write_row_written. Qed.

Lemma run_row_written evs w :
  map_Forall row_written (sessions w) →
  map_Forall row_written (sessions (run evs w)).
Proof.
  revert w. induction evs as [|ev evs IH]; intros w Hinv; [done|].
  rewrite run_cons. apply IH.
  destruct (step_writes ev w) as (now & Hrtc). by eapply writes_row_written.
Qed.

Lemma reachable_row_written w :
  reachable w → map_Forall row_written (sessions w).
Proof.
  intros (store & evs & ->). apply run_row_written. apply map_Forall_empty.
Qed.

Lemma reachable_identities_nonempty w :
  reachable w → identities_nonempty (sessions w).
Proof.
  intros Hw. unfold identities_nonempty.
  destruct (sessions w !! EmptyString) as [r|] eqn:Hr; [|done].
  by destruct (reachable_row_written w Hw EmptyString r Hr) as [? _].
Qed.

(** The specification's row invariant is the one of written rows whose
    auth blob has a string for [email]. *)
Lemma row_ok_written k r : row_ok k r → row_written k r.
Proof.
  intros (Hne & Hp & Hg). split_and!; [done| |done].
  exists (JsString k). split_and!; [done| |done].
  simpl. unfold falsy. by rewrite bool_decide_false.
Qed.

Lemma row_written_string k r e :
  row_written k r →
  JSON_parse_email (auth_status r) = Some (Some (JsString e)) → row_ok k r.
Proof.
  intros (Hne & (v & Hp & Hf & Hk) & Hg) He.
  rewrite He in Hp. injection Hp as <-. simpl in Hk. subst e. done.
Qed.

(** Loading a written row and reading the live store back. *)
Lemma load_read_written w e r store now :
  row_written e r → live w = Some store → sessions w !! e = Some r →
  ∃ w' v, loadSession e now w = Ok tt w'
    ∧ console w' = console w ++ [LogLoaded e; LogPleaseReload]
    ∧ sessions w' = alter (set_last_used now) e (sessions w)
    ∧ getCurrentSession w'
      = Ok (Some (mkCurrent v (auth_status r) (google_data r))) w'
    ∧ JSON_parse_email (auth_status r) = Some (Some v)
    ∧ js_falsy v = false
    ∧ sql_text v = e.
Proof.
  intros (Hne & (v & Hparse & Hf & Hk) & Hg) Hlive Hr.
  rewrite loadSession_unfold, Hr, Hlive. eexists _, v.
  split_and!; [done| |done| |done..].
  { simpl. by rewrite <-app_assoc. }
  rewrite getCurrentSession_unfold. simpl.
  rewrite lookup_insert_ne by done. rewrite !lookup_insert_eq.
  rewrite Hparse. simpl. rewrite Hf. unfold falsy.
  by rewrite !bool_decide_false by done.
Qed.

(** C10, amended: in every repository the script has built, each row's
    auth blob parses to a truthy [email] whose text, as the [email]
    column holds a bound value, is the row's key; when that [email] is a
    string, it is the key itself.  The histories range over all
    commands, so the writes of [loadSession] ([last_used]) and of
    [deleteSession] are among those that keep it. *)
Theorem stored_identity_matches_blob w k r :
  reachable w → sessions w !! k = Some r →
  ∃ v, JSON_parse_email (auth_status r) = Some (Some v)
    ∧ js_falsy v = false
    ∧ sql_text v = k
    ∧ (∀ e, v = JsString e →
         JSON_parse_email (auth_status r) = Some (Some (JsString k))).
Proof.
  intros Hw Hr.
  destruct (reachable_row_written w Hw k r Hr) as (_ & (v & Hp & Hf & Hk) & _).
  exists v. split_and!; [done..|].
  intros e ->. simpl in Hk. by subst e.
Qed.

(** C4, amended: in a repository the script has built, loading a stored
    session and reading the live store back returns both of its blobs
    and, for identity, the [email] of its auth blob, whose text is the
    key of the session; when that [email] is a string, the identity read
    is the key itself. *)
Theorem load_then_read_roundtrip w e r store now :
  reachable w → live w = Some store → sessions w !! e = Some r →
  ∃ w', loadSession e now w = Ok tt w'
    ∧ (∃ v, getCurrentSession w'
            = Ok (Some (mkCurrent v (auth_status r) (google_data r))) w'
          ∧ JSON_parse_email (auth_status r) = Some (Some v)
          ∧ sql_text v = e)
    ∧ (∀ e', JSON_parse_email (auth_status r) = Some (Some (JsString e')) →
         getCurrentSession w'
         = Ok (Some (mkCurrent (JsString e) (auth_status r) (google_data r)))
             w').
Proof.
  intros Hw Hlive Hr.
  destruct (load_read_written w e r store now
              (reachable_row_written w Hw e r Hr) Hlive Hr)
    as (w' & v & Hload & _ & _ & Hread & Hp & _ & Hk).
  exists w'. split_and!; [done|by exists v|].
  intros e' He'. rewrite He' in Hp. injection Hp as <-.
  simpl in Hk. by subst e'.
Qed.

(** *** Time stamps *)

Lemma stamped_before_mono (t0 t1 : Z) t :
  t0 ≤ t1 → stamped_before t0 t → stamped_before t1 t.
Proof. intros Hle Hs k r Hr. specialize (Hs k r Hr). lia. Qed.

Lemma repo_write_stamped now t t' :
  repo_write now t t' → stamped_before now t → stamped_before now t'.
Proof.
  intros Hw Hs. destruct Hw as [t c _ _|t c _|t e now'|t e]; intros k r.
  - rewrite lookup_insert. case_decide; [|by apply Hs]. by intros [= <-].
  - rewrite lookup_alter. case_decide; [|by apply Hs].
    destruct (t !! sql_text (cur_email c)); simpl; [|done]. by intros [= <-].
  - rewrite lookup_alter. case_decide as Hk; [|by apply Hs]. subst k.
    destruct (t !! e) as [r0|] eqn:Hr0; simpl; [|done].
    intros [= <-]. simpl. by apply (Hs e r0).
  - rewrite lookup_delete. case_decide; [done|by apply Hs].
Qed.

(** A lower bound [u] on the stamp of row [k] survives every write made
    at a reading not before [u]. *)
Lemma repo_write_lower now t t' k u :
  repo_write now t t' → u ≤ now →
  (∀ r, t !! k = Some r → u ≤ updated_at r) →
  ∀ r', t' !! k = Some r' → u ≤ updated_at r'.
Proof.
  intros Hw Hu Hlow r'. destruct Hw as [t c _ _|t c _|t e now'|t e].
  - rewrite lookup_insert. case_decide; [|by apply Hlow]. by intros [= <-].
  - rewrite lookup_alter. case_decide; [|by apply Hlow].
    destruct (t !! sql_text (cur_email c)); simpl; [|done]. by intros [= <-].
  - rewrite lookup_alter. case_decide as Hk; [|by apply Hlow]. subst k.
    destruct (t !! e) as [r0|] eqn:Hr0; simpl; [|done].
    intros [= <-]. simpl. by apply (Hlow r0).
  - rewrite lookup_delete. case_decide; [done|by apply Hlow].
Qed.

Lemma writes_stamped now t t' :
  rtc (repo_write now) t t' → stamped_before now t → stamped_before now t'.
Proof. induction 1; eauto using repo_write_stamped. Qed.

Lemma writes_lower now t t' k u :
  rtc (repo_write now) t t' → u ≤ now →
  (∀ r, t !! k = Some r → u ≤ updated_at r) →
  ∀ r', t' !! k = Some r' → u ≤ updated_at r'.
Proof. induction 1; eauto using repo_write_lower. Qed.

Lemma end_time_le (t0 : Z) evs : chronological t0 evs → t0 ≤ end_time t0 evs.
Proof.
  revert t0. induction evs as [|[c n1 n2|store] evs IH]; intros t0; simpl;
    [lia| |by apply IH].
  intros (? & ? & Hc). specialize (IH _ Hc). lia.
Qed.

Lemma chronological_app (t0 : Z) evs1 evs2 :
  chronological t0 (evs1 ++ evs2) ↔
  chronological t0 evs1 ∧ chronological (end_time t0 evs1) evs2.
Proof.
  revert t0. induction evs1 as [|[c n1 n2|store] evs1 IH]; intros t0; simpl;
    [tauto| |by apply IH].
  rewrite IH. tauto.
Qed.

Lemma run_stamped evs w (t0 : Z) :
  chronological t0 evs → stamped_before t0 (sessions w) →
  stamped_before (end_time t0 evs) (sessions (run evs w)).
Proof.
  revert w t0. induction evs as [|[c n1 n2|store] evs IH]; intros w t0; simpl;
    [done| |by intros ??; apply IH].
  intros (? & ? & Hc) Hs. apply IH; [done|].
  apply (stamped_before_mono n1); [done|].
  eapply writes_stamped; [apply main_writes|].
  by apply (stamped_before_mono t0).
Qed.

Lemma run_lower evs w (t0 : Z) k u :
  chronological t0 evs → u ≤ t0 →
  (∀ r, sessions w !! k = Some r → u ≤ updated_at r) →
  ∀ r', sessions (run evs w) !! k = Some r' → u ≤ updated_at r'.
Proof.
  revert w t0. induction evs as [|[c n1 n2|store] evs IH]; intros w t0; simpl;
    [by auto| |by intros ???; apply (IH _ t0)].
  intros (? & ? & Hc) Hu Hlow. apply (IH _ n2); [done|lia|].
  eapply writes_lower; [apply main_writes|lia|done].
Qed.

(** C9, amended: along a history whose clock readings are chronological
    and start no earlier than the stamps already stored, the [updated_at]
    of a row read at one point is at most the one read at any later
    point, whatever commands ran in between. *)
Theorem updated_at_advances evs1 evs2 w (t0 : Z) k r r' :
  stamped_before t0 (sessions w) →
  chronological t0 (evs1 ++ evs2) →
  sessions (run evs1 w) !! k = Some r →
  sessions (run (evs1 ++ evs2) w) !! k = Some r' →
  updated_at r ≤ updated_at r'.
Proof.
  intros Hs Hc Hr Hr'. rewrite run_app in Hr'.
  apply chronological_app in Hc as [Hc1 Hc2].
  pose proof (run_stamped evs1 w t0 Hc1 Hs) as Hs1.
  eapply (run_lower evs2 (run evs1 w) (end_time t0 evs1) k); [done| | |done].
  - by apply (Hs1 k).
  - intros r0 Hr0. rewrite Hr in Hr0. by simplify_eq.
Qed.

End Invariants.

(** ** The scenarios, run with the reference JSON reader *)

Section Scenarios.
#[local] Existing Instance flat_json.

Implicit Types (w : World).

Lemma getNextSession_rotation_witness :
  identities_nonempty (sessions abc_world)
  ∧ getNextSession (Some (JsString "b@x.com")) abc_world
    = Ok (Some ("c@x.com", abc_row "c@x.com" 3000)) abc_world.
Proof.
  split; [by vm_compute|].
  destruct (getNextSession_rotation abc_world (Some (JsString "b@x.com")))
    as (r & l & Hrun & Hl & _ & _ & _ & Hsucc & _); [by vm_compute|].
  rewrite Hrun. f_equal.
  apply ordered_listing_unique in Hl. subst l.
  rewrite (Hsucc "b@x.com" 1%nat ("b@x.com", abc_row "b@x.com" 2000));
    by vm_compute.
Defined.

Example next_after_c_wraps :
  getNextSession (Some (JsString "c@x.com")) abc_world
  = Ok (Some ("a@x.com", abc_row "a@x.com" 1000)) abc_world.
Proof. by vm_compute. Qed.

Example next_without_current :
  getNextSession None abc_world
  = Ok (Some ("a@x.com", abc_row "a@x.com" 1000)) abc_world.
Proof. by vm_compute. Qed.

Lemma syncCurrent_outcomes_witness :
  sync_result (logged_in blob_u) (syncCurrent 1000 (logged_in blob_u))
  = Some (Added (JsString "u@x.com"))
  ∧ sessions (world_of (syncCurrent 1000 (logged_in blob_u)))
    = {[ "u@x.com" := mkRow None blob_u "{}" 0 1000 1000 ]}.
Proof.
  destruct (syncCurrent_outcomes (logged_in blob_u) 1000) as (_ & Hadd & _ & _).
  destruct (Hadd (mkCurrent (JsString "u@x.com") blob_u "{}") (logged_in blob_u))
    as (w'' & Hrun & Hres & _ & Hs); [by vm_compute..|].
  split; [done|]. rewrite Hrun. simpl. rewrite Hs. apply insert_empty.
Defined.

Lemma rotation_is_a_cycle_witness :
  identities_nonempty (sessions abc_world)
  ∧ is_Some (sessions abc_world !! "b@x.com")
  ∧ successor_iter abc_world 3 "b@x.com" = Some "b@x.com".
Proof.
  assert (identities_nonempty (sessions abc_world)) as Hne by by vm_compute.
  assert (is_Some (sessions abc_world !! "b@x.com")) as Hb by (vm_compute; eauto).
  split_and!; [done..|].
  by destruct (rotation_is_a_cycle abc_world "b@x.com" Hne Hb) as (_ & Hback & _).
Defined.

Lemma load_then_read_roundtrip_witness :
  let w := run [EvRun CmdSync 2000 2000] (logged_in blob_u) in
  reachable w
  ∧ ∃ w', loadSession "u@x.com" 3000 w = Ok tt w'
      ∧ getCurrentSession w'
        = Ok (Some (mkCurrent (JsString "u@x.com") blob_u "{}")) w'.
Proof.
  intros w.
  assert (reachable w) as Hw by by eexists _, _.
  split; [done|].
  destruct (load_then_read_roundtrip w "u@x.com"
              (mkRow None blob_u "{}" 0 2000 2000) {[ AUTH_KEY := blob_u ]}
              3000 Hw) as (w' & Hload & _ & Hstring);
    [by vm_compute..|].
  exists w'. split; [done|].
  apply (Hstring "u@x.com"). by vm_compute.
Defined.

(** C4 as stated fails: the auth blob [{"email":123}] is synchronised
    and stored under the identity ['123']; loading that session and
    reading the live store back yields the number 123 for identity,
    which the script's own [===] tells apart from the stored ['123']. *)
Lemma load_then_read_other_identity :
  let w := run [EvRun CmdSync 1000 1000] (logged_in blob_123) in
  sessions w !! "123" = Some (mkRow None blob_123 "{}" 0 1000 1000)
  ∧ ∃ w' c, loadSession "123" 2000 w = Ok tt w'
      ∧ getCurrentSession w' = Ok (Some c) w'
      ∧ cur_email c = JsOther true "123"
      ∧ cur_email c ≠ JsString "123"
      ∧ ¬ strict_eq "123" (cur_email c).
Proof.
  split; [by vm_compute|].
  eexists _, (mkCurrent (JsOther true "123") blob_123 "{}").
  split_and!; [by vm_compute|by vm_compute|done..].
Qed.

Lemma repeated_sync_settles_witness :
  sync_calls [1000; 2000; 3000] (logged_in blob_u)
  = [Some (Added (JsString "u@x.com")); Some (Unchanged (JsString "u@x.com"));
     Some (Unchanged (JsString "u@x.com"))].
Proof.
  destruct (repeated_sync_settles (logged_in blob_u)
              (mkCurrent (JsString "u@x.com") blob_u "{}") (logged_in blob_u)
              1000 [2000; 3000]) as (first & Hcalls & Hiff & _);
    [by vm_compute|].
  rewrite Hcalls. f_equal. by apply Hiff.
Defined.

(** C6 as stated fails: with [u@x.com] logged in and nothing stored,
    [load ghost@x.com] and [delete ghost@x.com] both end with status 0,
    and [delete] prints its confirmation, not an error. *)
Lemma cli_missing_identity_exits_zero :
  let w := logged_in blob_u in
  sessions w !! "ghost@x.com" = None
  ∧ exit_status (main (CmdLoad (Some "ghost@x.com")) 0 0 w) = 0
  ∧ printed w (main (CmdLoad (Some "ghost@x.com")) 0 0 w)
    = [ErrSessionNotFound "ghost@x.com"]
  ∧ exit_status (main (CmdDelete (Some "ghost@x.com")) 0 0 w) = 0
  ∧ printed w (main (CmdDelete (Some "ghost@x.com")) 0 0 w)
    = [LogDeleted "ghost@x.com"].
Proof. by vm_compute. Qed.

Lemma cli_missing_identity_witness :
  main (CmdLoad (Some "ghost@x.com")) 5 5 abc_world
  = Ok tt (print (ErrSessionNotFound "ghost@x.com") abc_world)
  ∧ exit_status (main (CmdDelete (Some "ghost@x.com")) 5 5 abc_world) = 0.
Proof.
  destruct (cli_missing_identity abc_world "ghost@x.com" 5 5)
    as ((w' & Hrun & Hc & _ & Hl & Hs) & _ & _ & _ & _ & Hexit);
    [done|by vm_compute|].
  split; [|done]. rewrite Hrun. f_equal.
  destruct w'. simpl in *. by subst.
Defined.

Lemma load_absent_no_effect_witness :
  sessions abc_world !! "ghost@x.com" = None
  ∧ loadSession "ghost@x.com" 5 abc_world
    = Ok tt (print (ErrSessionNotFound "ghost@x.com") abc_world).
Proof.
  assert (sessions abc_world !! "ghost@x.com" = None) as Hnone by by vm_compute.
  split; [done|].
  destruct (load_absent_no_effect abc_world "ghost@x.com" 5 Hnone)
    as (w' & Hrun & Hc & _ & Hl & Hs).
  rewrite Hrun. f_equal. destruct w'. simpl in *. by subst.
Defined.

Lemma update_path_frame_witness :
  let w := run refreshed_history (logged_in blob_u) in
  ∃ w'', syncCurrent 3000 w = Ok tt w''
    ∧ sessions w'' !! "u@x.com"
      = Some (mkRow None blob_u_renamed "{}" 0 2000 3000).
Proof.
  intros w.
  destruct (update_path_frame w 3000 (mkCurrent (JsString "u@x.com") blob_u_renamed "{}")
              w (mkRow None blob_u "{}" 0 2000 2000))
    as (w'' & r' & Hrun & _ & Hr' & Ha & Hg & Hu & Hc & Hlu & Hn & _);
    [by vm_compute|by vm_compute|by left|].
  exists w''. split; [done|]. simpl in *. rewrite Hr'. f_equal.
  destruct r'. simpl in *. by subst.
Defined.

(** C9 as stated fails: a row stamped at 2000 is updated by a
    [syncCurrent] that reads the clock at 1000, and its [updated_at]
    goes back to 1000. *)
Lemma updated_at_goes_back :
  let before := run refreshed_history (logged_in blob_u) in
  let after := step (EvRun CmdSync 1000 1000) before in
  ∃ r r',
    sessions before !! "u@x.com" = Some r
    ∧ sessions after !! "u@x.com" = Some r'
    ∧ updated_at r = 2000 ∧ updated_at r' = 1000
    ∧ updated_at r' < updated_at r.
Proof.
  exists (mkRow None blob_u "{}" 0 2000 2000),
         (mkRow None blob_u_renamed "{}" 0 2000 1000).
  by vm_compute.
Qed.

Lemma updated_at_advances_witness :
  let w := logged_in blob_u in
  let evs2 := [EvRun CmdSync 3000 3000] in
  stamped_before 0 (sessions w)
  ∧ chronological 0 (refreshed_history ++ evs2)
  ∧ ∃ r r', sessions (run refreshed_history w) !! "u@x.com" = Some r
      ∧ sessions (run (refreshed_history ++ evs2) w) !! "u@x.com" = Some r'
      ∧ updated_at r ≤ updated_at r'.
Proof.
  intros w evs2.
  assert (stamped_before 0 (sessions w)) as Hs by (by intros k r).
  assert (chronological 0 (refreshed_history ++ evs2)) as Hc
    by (simpl; lia).
  split_and!; [done..|].
  exists (mkRow None blob_u "{}" 0 2000 2000),
         (mkRow None blob_u_renamed "{}" 0 2000 3000).
  assert (sessions (run refreshed_history w) !! "u@x.com"
          = Some (mkRow None blob_u "{}" 0 2000 2000)) as Hr by by vm_compute.
  assert (sessions (run (refreshed_history ++ evs2) w) !! "u@x.com"
          = Some (mkRow None blob_u_renamed "{}" 0 2000 3000)) as Hr'
    by by vm_compute.
  split_and!; [done..|].
  exact (updated_at_advances refreshed_history evs2 w 0 "u@x.com" _ _
           Hs Hc Hr Hr').
Defined.

Lemma stored_identity_matches_blob_witness :
  let w := run (refreshed_history ++ [EvRun CmdSync 3000 3000])
             (logged_in blob_u) in
  reachable w
  ∧ JSON_parse_email blob_u_renamed = Some (Some (JsString "u@x.com")).
Proof.
  intros w.
  assert (reachable w) as Hw by by eexists _, _.
  split; [done|].
  destruct (stored_identity_matches_blob w "u@x.com"
              (mkRow None blob_u_renamed "{}" 0 2000 3000) Hw)
    as (v & Hparse & _ & _ & Hstring); [by vm_compute|].
  apply (Hstring "u@x.com").
  vm_compute in Hparse. by injection Hparse as <-.
Defined.

(** C10 as stated fails: synchronising the auth blob [{"email":123}]
    writes a row under the key ['123'], and the [email] its auth blob
    parses to is the number 123, not that key. *)
Lemma stored_identity_differs_from_blob :
  let w := run [EvRun CmdSync 1000 1000] (logged_in blob_123) in
  ∃ r, sessions w !! "123" = Some r
    ∧ JSON_parse_email (auth_status r) = Some (Some (JsOther true "123"))
    ∧ JSON_parse_email (auth_status r) ≠ Some (Some (JsString "123")).
Proof.
  exists (mkRow None blob_123 "{}" 0 1000 1000).
  split_and!; [by vm_compute|by vm_compute|].
  intros Hparse. vm_compute in Hparse. done.
Qed.

End Scenarios.

(** * Further properties of the operations *)

(** ** Reading the live store *)

Section CurrentSession.
Context `{!JsonParser}.
Implicit Types (w : World) (c : Current).

Lemma printed_same {A} w (a : A) w' :
  console w' = console w → printed w (Ok a w') = [].
Proof.
  intros Hc. unfold printed. simpl. rewrite Hc. apply drop_all.
Qed.

Lemma printed_one {A} w (a : A) m :
  printed w (Ok a (print m w)) = [m].
Proof. unfold printed. simpl. by rewrite drop_app_length. Qed.

(** X1: with a usable live store [getCurrentSession] always returns,
    leaves both stores as they are, and prints the parse error line
    exactly when the auth key holds a text that [JSON.parse(..).email]
    throws on; it then returns nothing.  It returns an object exactly
    when the auth key holds a text whose [email] is a truthy value, a
    string or not, and that value is the [email] of the object. *)
Theorem getCurrentSession_catches w t :
  live w = Some t →
  ∃ o w',
    getCurrentSession w = Ok o w'
    ∧ live w' = live w ∧ sessions w' = sessions w
    ∧ (printed w (getCurrentSession w) = [ErrParsingCurrent]
       ↔ ∃ v, t !! AUTH_KEY = Some v ∧ JSON_parse_email v = None)
    ∧ (printed w (getCurrentSession w) ≠ [ErrParsingCurrent] →
       printed w (getCurrentSession w) = [])
    ∧ (printed w (getCurrentSession w) = [ErrParsingCurrent] → o = None)
    ∧ (is_Some o ↔
       ∃ v e, t !! AUTH_KEY = Some v
         ∧ JSON_parse_email v = Some (Some e) ∧ js_falsy e = false)
    ∧ (∀ c, o = Some c →
       ∃ v, t !! AUTH_KEY = Some v
         ∧ JSON_parse_email v = Some (Some (cur_email c))).
Proof.
  intros Hlive. rewrite getCurrentSession_unfold, Hlive.
  destruct (t !! AUTH_KEY) as [v|] eqn:Hv.
  2: { eexists _, _. rewrite printed_same by done.
       split_and!; try done.
       - split; [done|]. by intros (? & ? & _).
       - split; [by intros []|]. by intros (? & ? & ? & _). }
  destruct (JSON_parse_email v) as [[e|]|] eqn:Hp; simpl;
    [destruct (js_falsy e) eqn:He|..]; eexists _, _;
    rewrite ?printed_one, ?printed_same by done;
    (split_and!; [done..| | | | |]); try done.
  - split; [done|]. intros (v' & [= <-] & Hp'). congruence.
  - split; [by intros []|]. intros (v' & e' & [= <-] & Hp' & He'). congruence.
  - split; [done|]. intros (v' & [= <-] & Hp'). congruence.
  - split; [eauto|done].
  - intros c [= <-]. eauto.
  - split; [done|]. intros (v' & [= <-] & Hp'). congruence.
  - split; [by intros []|]. intros (v' & e' & [= <-] & Hp' & He'). congruence.
  - split; [eauto|done].
  - split; [by intros []|]. intros (v' & e' & [= <-] & Hp' & He'). congruence.
Qed.

(** X2: the object [getCurrentSession] returns carries the auth blob of
    the live store verbatim, and as secondary blob the stored one, or
    ["{}"] when the secondary key is absent or holds the empty string. *)
Theorem getCurrentSession_blobs w c w' t :
  getCurrentSession w = Ok (Some c) w' → live w = Some t →
  t !! AUTH_KEY = Some (cur_auth_status c)
  ∧ (t !! GOOGLE_KEY = None → cur_google_data c = "{}")
  ∧ (t !! GOOGLE_KEY = Some EmptyString → cur_google_data c = "{}")
  ∧ (∀ g, t !! GOOGLE_KEY = Some g → g ≠ EmptyString → cur_google_data c = g).
Proof.
  intros Hcur Hlive.
  destruct (getCurrentSession_Some _ _ _ Hcur)
    as (_ & t' & Hlive' & Hauth & _ & _ & Hg & _).
  assert (t' = t) as -> by congruence. split_and!; [done|..].
  - intros Hnone. by rewrite Hnone in Hg.
  - intros Hempty. by rewrite Hempty in Hg.
  - intros g Hsome Hne. rewrite Hsome in Hg. simpl in Hg. unfold falsy in Hg.
    by rewrite bool_decide_false in Hg.
Qed.

End CurrentSession.

(** ** Synchronising, loading and deleting: effects and frames *)

Section Effects.
Context `{!JsonParser}.
Implicit Types (w : World) (c : Current) (t : gmap string Row).

Lemma syncCurrent_rows w now :
  let w' := world_of (syncCurrent now w) in
  live w' = live w
  ∧ (∀ k r, sessions w !! k = Some r →
       ∃ r', sessions w' !! k = Some r'
         ∧ last_used r' = last_used r ∧ created_at r' = created_at r
         ∧ name r' = name r
         ∧ (r' = r ∨ ∃ c w0, getCurrentSession w = Ok (Some c) w0
                            ∧ k = sql_text (cur_email c)))
  ∧ (∀ k, is_Some (sessions w' !! k) →
       is_Some (sessions w !! k)
       ∨ ∃ c w0, getCurrentSession w = Ok (Some c) w0 ∧ k = sql_text (cur_email c)).
Proof.
  intros w'. unfold w'. clear w'. rewrite syncCurrent_unfold.
  destruct (getCurrentSession w) as [[c|] w0| |] eqn:Hcur.
  - destruct (getCurrentSession_Some _ _ _ Hcur) as [-> _].
    destruct (sessions w !! sql_text (cur_email c)) as [r0|] eqn:Hr0; [case_match|]; simpl.
    + split_and!; [done|..].
      * intros k r Hr. destruct (decide (k = sql_text (cur_email c))) as [->|Hk].
        -- rewrite lookup_alter_eq, Hr. simpl. eexists. split_and!; eauto.
        -- rewrite lookup_alter_ne by done. eauto 10.
      * intros k. destruct (decide (k = sql_text (cur_email c))) as [->|Hk]; [eauto|].
        rewrite lookup_alter_ne by done. by left.
    + split_and!; [done|eauto 10|auto].
    + split_and!; [done|..].
      * intros k r Hr. rewrite lookup_insert_ne by congruence. eauto 10.
      * intros k. destruct (decide (k = sql_text (cur_email c))) as [->|Hk]; [eauto|].
        rewrite lookup_insert_ne by done. by left.
  - destruct (getCurrentSession_None _ _ Hcur) as (Hl & Hs & _). simpl.
    rewrite Hl, Hs. split_and!; [done|eauto 10|auto].
  - destruct (getCurrentSession_Uncaught _ _ Hcur) as [-> _]. simpl.
    split_and!; [done|eauto 10|auto].
  - by destruct (getCurrentSession_no_exit w code w0).
Qed.

(** X3: whatever branch [syncCurrent] takes, it never writes the live
    store, never removes a row, and leaves [last_used], [created_at] and
    [name] of every stored row alone; a row other than that of the
    identity read from the live store is left entirely as it was, and the
    only key that can appear is that identity. *)
Theorem syncCurrent_preserves w now :
  let w' := world_of (syncCurrent now w) in
  live w' = live w
  ∧ (∀ k r, sessions w !! k = Some r →
       ∃ r', sessions w' !! k = Some r'
         ∧ last_used r' = last_used r ∧ created_at r' = created_at r
         ∧ name r' = name r
         ∧ (r' = r ∨ ∃ c w0, getCurrentSession w = Ok (Some c) w0
                            ∧ k = sql_text (cur_email c)))
  ∧ (∀ k, is_Some (sessions w' !! k) →
       is_Some (sessions w !! k)
       ∨ ∃ c w0, getCurrentSession w = Ok (Some c) w0 ∧ k = sql_text (cur_email c)).
Proof. apply syncCurrent_rows. Qed.

(** What [syncCurrent] leaves behind when the live store holds an
    identity: its row, with the blobs of the live store. *)
Lemma syncCurrent_post w now c w0 :
  getCurrentSession w = Ok (Some c) w0 →
  ∃ w' r,
    syncCurrent now w = Ok tt w'
    ∧ live w' = live w
    ∧ sessions w' = <[sql_text (cur_email c) := r]> (sessions w)
    ∧ auth_status r = cur_auth_status c
    ∧ google_data r = cur_google_data c
    ∧ getCurrentSession w' = Ok (Some c) w'.
Proof.
  intros Hcur. pose proof (getCurrentSession_Some _ _ _ Hcur) as [-> _].
  destruct (sessions w !! sql_text (cur_email c)) as [r|] eqn:Hr.
  - destruct (decide (auth_status r = cur_auth_status c
                      ∧ google_data r = cur_google_data c)) as [[Ha Hg]|Hdiff].
    + destruct (syncCurrent_unchanged w now c w r Hcur Hr Ha Hg)
        as (w' & Hrun & _ & Hl & Hs).
      exists w', r. rewrite Hs, insert_id by done. split_and!; try done.
      by apply (getCurrentSession_frame w).
    + assert (auth_status r ≠ cur_auth_status c
              ∨ google_data r ≠ cur_google_data c) as Hd.
      { destruct (decide (auth_status r = cur_auth_status c)); [|by left].
        destruct (decide (google_data r = cur_google_data c)); [|by right].
        by destruct Hdiff. }
      destruct (syncCurrent_updated w now c w r Hcur Hr Hd)
        as (w' & Hrun & _ & Hl & _ & Hs).
      eexists w', _. rewrite Hs. split_and!; try done.
      by apply (getCurrentSession_frame w).
  - destruct (syncCurrent_added w now c w Hcur Hr)
      as (w' & Hrun & _ & Hl & _ & Hs).
    eexists w', _. rewrite Hs. split_and!; try done.
    by apply (getCurrentSession_frame w).
Qed.

(** X4: after [syncCurrent] has run with an identity in the live store,
    that identity is stored with exactly the two blobs of the live store,
    and the live store still reads the same. *)
Theorem syncCurrent_mirrors w now c w0 :
  getCurrentSession w = Ok (Some c) w0 →
  ∃ w' r,
    syncCurrent now w = Ok tt w'
    ∧ sessions w' !! sql_text (cur_email c) = Some r
    ∧ auth_status r = cur_auth_status c
    ∧ google_data r = cur_google_data c
    ∧ getCurrentSession w' = Ok (Some c) w'.
Proof.
  intros Hcur.
  destruct (syncCurrent_post w now c w0 Hcur)
    as (w' & r & Hrun & _ & Hs & Ha & Hg & Hcur').
  exists w', r. rewrite Hs, lookup_insert_eq. done.
Qed.

(** X5: loading a stored session into a usable live store writes its two
    blobs under the two keys and leaves every other key of the live store
    alone; in the repository it sets that row's [last_used] to the clock
    reading and changes nothing else; it prints the two success lines. *)
Theorem loadSession_loads w e r store now :
  sessions w !! e = Some r → live w = Some store →
  ∃ w' store',
    loadSession e now w = Ok tt w'
    ∧ live w' = Some store'
    ∧ store' !! AUTH_KEY = Some (auth_status r)
    ∧ store' !! GOOGLE_KEY = Some (google_data r)
    ∧ (∀ k, k ≠ AUTH_KEY → k ≠ GOOGLE_KEY → store' !! k = store !! k)
    ∧ sessions w' !! e
      = Some (mkRow (name r) (auth_status r) (google_data r) now
                (created_at r) (updated_at r))
    ∧ (∀ k, k ≠ e → sessions w' !! k = sessions w !! k)
    ∧ console w' = console w ++ [LogLoaded e; LogPleaseReload].
Proof.
  intros Hr Hlive. rewrite loadSession_unfold, Hr, Hlive.
  eexists _, _. split_and!; try done; simpl.
  - by rewrite lookup_insert_ne, lookup_insert_eq.
  - by rewrite lookup_insert_eq.
  - intros k ??. by rewrite !lookup_insert_ne.
  - by rewrite lookup_alter_eq, Hr.
  - intros k ?. by rewrite lookup_alter_ne.
  - by rewrite <-app_assoc.
Qed.

Lemma strict_sorted_filter (P : Session → Prop) `{!∀ s, Decision (P s)}
    (l : list Session) :
  StronglySorted rotation_lt l → StronglySorted rotation_lt (filter P l).
Proof.
  induction 1 as [|a l Hs IH Hall]; [constructor|].
  rewrite filter_cons. case_decide; [|done].
  constructor; [done|].
  rewrite Forall_forall in Hall |- *. intros b Hb.
  apply list_elem_of_filter in Hb as [_ Hb]. by apply Hall.
Qed.

Lemma select_ordered_delete (t : gmap string Row) (e : string) :
  select_ordered (delete e t)
  = filter (λ s, email s ≠ e) (select_ordered t).
Proof.
  symmetry. apply ordered_listing_unique. split.
  - intros s. rewrite list_elem_of_filter, select_ordered_elem.
    rewrite lookup_delete. case_decide as Hk.
    + split; [by intros [? ?]|done].
    + split; [by intros [? ?]|]. intros ?. split; [congruence|done].
  - apply strict_sorted_filter, select_ordered_sorted.
Qed.

(** A row touched with a reading later than the [last_used] of the
    others goes to the end of the listing. *)
Lemma select_ordered_touch (t : gmap string Row) (e : string) (r : Row)
    (now : Z) :
  t !! e = Some r →
  (∀ k r', k ≠ e → t !! k = Some r' → last_used r' < now) →
  select_ordered (alter (set_last_used now) e t)
  = select_ordered (delete e t) ++ [(e, set_last_used now r)].
Proof.
  intros Hr Hlater. symmetry. apply ordered_listing_unique. split.
  - intros [k rk]. rewrite elem_of_app, list_elem_of_singleton.
    rewrite select_ordered_elem. unfold email. simpl.
    destruct (decide (k = e)) as [->|Hk].
    + rewrite lookup_delete_eq, lookup_alter_eq, Hr. simpl.
      split; [intros [|]; [done|congruence]|]. intros [= <-]. by right.
    + rewrite lookup_delete_ne, lookup_alter_ne by done.
      split; [intros [|]; [done|congruence]|]. by left.
  - apply StronglySorted_app_2;
      [|apply select_ordered_sorted|repeat constructor].
    intros [k rk] s2 Hk ->%list_elem_of_singleton.
    apply select_ordered_elem in Hk. unfold email in Hk. simpl in Hk.
    left. simpl.
    destruct (decide (k = e)) as [->|Hke].
    + by rewrite lookup_delete_eq in Hk.
    + rewrite lookup_delete_ne in Hk by done. by apply (Hlater k).
Qed.

(** X6: [deleteSession] removes the row of the identity and nothing
    else: the identity is no longer found, every other row and the live
    store are as before, and the rotation listing is the previous one
    with that session taken out, the others keeping their order.  It
    always completes and prints the confirmation. *)
Theorem deleteSession_removes w e :
  ∃ w',
    deleteSession e w = Ok tt w'
    ∧ sessions w' !! e = None
    ∧ (∀ k, k ≠ e → sessions w' !! k = sessions w !! k)
    ∧ live w' = live w
    ∧ select_ordered (sessions w')
      = filter (λ s, email s ≠ e) (select_ordered (sessions w))
    ∧ console w' = console w ++ [LogDeleted e].
Proof.
  rewrite deleteSession_unfold. eexists. split_and!; try done; simpl.
  - apply lookup_delete_eq.
  - intros k ?. by rewrite lookup_delete_ne.
  - apply select_ordered_delete.
Qed.

End Effects.

(** ** The orchestrated [next] and the command line *)

Section Orchestration.
Context `{!JsonParser}.
Implicit Types (w : World) (c : Current) (t : gmap string Row).

Lemma next_unfold now1 now2 w :
  next now1 now2 w =
  match syncCurrent now1 (print LogSyncing w) with
  | Ok _ w1 =>
      match getCurrentSession w1 with
      | Ok current w2 =>
          match getNextSession (cur_email <$> current) w2 with
          | Ok None w3 => Ok tt (print LogNoSessions w3)
          | Ok (Some s) w3 =>
              match current with
              | Some c =>
                  if bool_decide (strict_eq (email s) (cur_email c))
                  then Ok tt (print (LogAlreadyOnly (cur_email c)) w3)
                  else loadSession (email s) now2
                         (print (LogSwitching (email s)) w3)
              | None =>
                  loadSession (email s) now2 (print (LogSwitching (email s)) w3)
              end
          | Uncaught w3 => Uncaught w3
          | Exited code w3 => Exited code w3
          end
      | Uncaught w2 => Uncaught w2
      | Exited code w2 => Exited code w2
      end
  | Uncaught w1 => Uncaught w1
  | Exited code w1 => Exited code w1
  end.
Proof.
  unfold next.
  unfold mbind at 1, M_bind at 1, bind at 1. simpl.
  unfold mbind at 1, M_bind at 1, bind at 1.
  destruct (syncCurrent now1 (print LogSyncing w)) as [[] w1|w1|code w1]; [|done..].
  unfold mbind at 1, M_bind at 1, bind at 1.
  destruct (getCurrentSession w1) as [current w2|w2|code w2]; [|done..].
  unfold mbind at 1, M_bind at 1, bind at 1.
  destruct (getNextSession (cur_email <$> current) w2)
    as [[s|] w3|w3|code w3]; [|done..].
  destruct current as [c|]; [case_bool_decide|]; done.
Qed.

Lemma syncCurrent_unusable now w :
  live w = None → syncCurrent now w = Uncaught w.
Proof.
  intros Hlive. by rewrite syncCurrent_unfold, getCurrentSession_unfold, Hlive.
Qed.

Lemma syncCurrent_usable now w store :
  live w = Some store →
  ∃ w', syncCurrent now w = Ok tt w' ∧ live w' = live w.
Proof.
  intros Hlive. pose proof (syncCurrent_world now w) as [Hl _].
  rewrite syncCurrent_unfold in *.
  rewrite getCurrentSession_unfold in *. rewrite Hlive in *.
  repeat case_match; simplify_eq/=; eauto.
Qed.

(** The session [getNextSession] returns is a stored one, and there is
    one whenever anything is stored. *)
Lemma getNextSession_result cur w :
  ∃ r, getNextSession cur w = Ok r w
    ∧ (r = None ↔ sessions w = ∅)
    ∧ (∀ s, r = Some s → sessions w !! email s = Some s.2).
Proof.
  assert (∀ j, (length (select_ordered (sessions w)) ≠ 0)%nat →
               (j < length (select_ordered (sessions w)))%nat →
               (select_ordered (sessions w) !! j = None ↔ sessions w = ∅)
               ∧ ∀ s, select_ordered (sessions w) !! j = Some s →
                      sessions w !! email s = Some s.2) as Hidx.
  { intros j Hlen Hj. split; [|intros s; apply select_ordered_lookup].
    split.
    - intros Hnone. apply lookup_ge_None in Hnone. lia.
    - intros Hw. rewrite Hw, select_ordered_empty in Hlen. done. }
  unfold getNextSession. run_prog.
  case_bool_decide as H0.
  { eexists. split_and!; [done| |done]. split; [|done]. intros _.
    apply map_size_empty_iff. by rewrite <-select_ordered_length. }
  assert (0 < length (select_ordered (sessions w)))%nat by lia.
  case_bool_decide; [eexists; split; [done|by apply Hidx]|].
  destruct (js_truthy_opt cur) as [e|]; [|eexists; split; [done|by apply Hidx]].
  destruct (list_find _ _) as [[i s]|];
    [|eexists; split; [done|by apply Hidx]].
  eexists; split; [done|]. apply Hidx; [done|].
  by apply Nat.mod_upper_bound.
Qed.

Lemma loadSession_usable e now w store :
  live w = Some store → ∃ w', loadSession e now w = Ok tt w'.
Proof.
  intros Hlive. rewrite loadSession_unfold, Hlive. case_match; eauto.
Qed.

Lemma next_usable now1 now2 w store :
  live w = Some store → ∃ w', next now1 now2 w = Ok tt w'.
Proof.
  intros Hlive. rewrite next_unfold.
  destruct (syncCurrent_usable now1 (print LogSyncing w) store Hlive)
    as (w1 & -> & Hl1). simpl in Hl1.
  pose proof (getCurrentSession_world w1) as [Hl2 _].
  rewrite getCurrentSession_unfold in *. rewrite Hl1, Hlive in *.
  assert (∀ e w2, live w2 = live w1 → ∃ w', loadSession e now2 w2 = Ok tt w')
    as Hload.
  { intros e w2 Hw2. apply (loadSession_usable e now2 w2 store). congruence. }
  repeat case_match; simplify_eq/=;
    match goal with
    | H : getNextSession ?cur ?w2 = _ |- _ =>
        destruct (getNextSession_pure cur w2) as [? Hn];
        rewrite Hn in H; simplify_eq
    end; eauto.
  all: apply Hload; simpl; congruence.
Qed.

Lemma next_unusable now1 now2 w :
  live w = None → next now1 now2 w = Uncaught (print LogSyncing w).
Proof.
  intros Hlive. rewrite next_unfold.
  by rewrite (syncCurrent_unusable now1 (print LogSyncing w)).
Qed.

(** The status one of the four commands of [main] ends with is 0 or 1,
    and it is 1 in exactly two cases: the argument of [load] or [delete]
    is missing or empty (a usage line is printed), or the command reaches
    the live store and the live store is unusable (an uncaught error).
    In both cases neither store has been changed. *)
Lemma main_status command now1 now2 w :
  let r := main command now1 now2 w in
  (exit_status r = 0 ∨ exit_status r = 1)
  ∧ (exit_status r = 1 ↔
     usage_error command ∨ (live w = None ∧ needs_live_store command w))
  ∧ (crashed r = true ↔ live w = None ∧ needs_live_store command w)
  ∧ (usage_error command →
     ∃ m, r = Exited 1 (print m w) ∧ on_stderr m = true)
  ∧ (exit_status r = 1 →
     live (world_of r) = live w ∧ sessions (world_of r) = sessions w).
Proof.
  destruct command as [| |arg|arg]; simpl.
  - destruct (live w) as [store|] eqn:Hlive.
    + destruct (next_usable now1 now2 w store Hlive) as [w' ->]. simpl.
      split_and!; [by left|split; [done|by intros [[]|[? _]]]
                  |split; [done|by intros [? _]]|done|done].
    + rewrite (next_unusable now1 now2 w Hlive). simpl.
      split_and!; [by right|split; auto|split; auto|done|done].
  - destruct (live w) as [store|] eqn:Hlive.
    + destruct (syncCurrent_usable now1 w store Hlive) as (w' & -> & _). simpl.
      split_and!; [by left|split; [done|by intros [[]|[? _]]]
                  |split; [done|by intros [? _]]|done|done].
    + rewrite (syncCurrent_unusable now1 w Hlive). simpl.
      split_and!; [by right|split; auto|split; auto|done|done].
  - destruct (truthy_opt arg) as [e|] eqn:Harg; simpl.
    + unfold loadByEmail. rewrite loadSession_unfold.
      destruct (sessions w !! e) as [r|] eqn:Hr; simpl.
      * destruct (live w) as [store|] eqn:Hlive; simpl.
        -- split_and!; [by left|split; [done|by intros [|[? _]]]
                       |split; [done|by intros [? _]]|done|done].
        -- split_and!; [by right|split; [intros _; right|done]
                       |split; [intros _|done]|done|done];
             (split; [done|exists e; eauto]).
      * split_and!; [by left| | |done|done].
        -- split; [done|]. intros [|[_ (e' & [= <-] & [? ?])]]; congruence.
        -- split; [done|]. intros [_ (e' & [= <-] & [? ?])]; congruence.
    + split_and!; [by right|split; [by left|done]
                  |split; [done|by intros [_ (? & ? & _)]]| |done].
      intros _. by exists ErrUsageLoad.
  - destruct (truthy_opt arg) as [e|] eqn:Harg; simpl.
    + split_and!; [by left|split; [done|by intros [|[_ []]]]
                  |split; [done|by intros [_ []]]|done|done].
    + split_and!; [by right|split; [by left|done]
                  |split; [done|by intros [_ []]]| |done].
      intros _. by exists ErrUsageDelete.
Qed.

(** X8: the only keys of the live store a command ever writes are the
    auth key and the secondary key; every other entry of the IDE's store
    is as before.  [sync] and [delete] do not write the live store at
    all, and no command makes an unusable store usable. *)
Theorem main_live_store_frame command now1 now2 w :
  let w' := world_of (main command now1 now2 w) in
  (live w = None → live w' = None)
  ∧ (∀ store, live w = Some store →
       ∃ store', live w' = Some store'
         ∧ ∀ k, k ≠ AUTH_KEY → k ≠ GOOGLE_KEY → store' !! k = store !! k)
  ∧ (command = CmdSync ∨ (∃ arg, command = CmdDelete arg) → live w' = live w).
Proof.
  assert (∀ e now w0,
            (live w0 = None → live (world_of (loadSession e now w0)) = None)
            ∧ ∀ store, live w0 = Some store →
                ∃ store', live (world_of (loadSession e now w0)) = Some store'
                  ∧ ∀ k, k ≠ AUTH_KEY → k ≠ GOOGLE_KEY →
                         store' !! k = store !! k) as Hload.
  { intros e now w0. rewrite loadSession_unfold.
    destruct (sessions w0 !! e) as [r|]; simpl; [|by eauto].
    destruct (live w0) as [store|] eqn:Hl; simpl; [|by rewrite Hl].
    split; [done|]. intros ? [= <-]. eexists. split; [done|].
    intros k ??. by rewrite !lookup_insert_ne. }
  destruct command as [| |arg|arg]; simpl.
  - assert (live (world_of (next now1 now2 w)) = live w
            ∨ ∃ e w0, live w0 = live w
                ∧ world_of (next now1 now2 w)
                  = world_of (loadSession e now2 w0)) as Hnext.
    { rewrite next_unfold.
      pose proof (syncCurrent_world now1 (print LogSyncing w)) as [Hl1 _].
      simpl in Hl1.
      destruct (syncCurrent now1 (print LogSyncing w)) as [[] w1|w1|code w1];
        simpl in Hl1; [|by left..].
      pose proof (getCurrentSession_world w1) as [Hl2 _].
      destruct (getCurrentSession w1) as [current w2|w2|code w2];
        simpl in Hl2; [|left; simpl; congruence..].
      destruct (getNextSession_pure (cur_email <$> current) w2) as [[s|] ->];
        [|left; simpl; congruence].
      destruct current as [c|]; [case_bool_decide|];
        [left; simpl; congruence|right; eexists _, _; split; [|done];
         simpl; congruence..]. }
    split_and!; [| |by intros [|[? ?]]].
    + intros Hnone. destruct Hnext as [->|(e & w0 & Hw0 & ->)]; [done|].
      apply Hload. congruence.
    + intros store Hsome. destruct Hnext as [->|(e & w0 & Hw0 & ->)]; [by eauto|].
      apply Hload. congruence.
  - pose proof (syncCurrent_world now1 w) as [Hl _]. rewrite Hl.
    split_and!; eauto.
  - destruct (truthy_opt arg) as [e|]; simpl.
    + unfold loadByEmail. split_and!; [apply Hload|apply Hload|].
      by intros [|[? ?]].
    + split_and!; [done|by eauto|done].
  - destruct (truthy_opt arg) as [e|]; simpl; split_and!; eauto.
Qed.

(** X9: the session [getNextSession] returns is always one stored in
    the repository, whatever identity it is given, and it returns none
    only when nothing is stored. *)
Theorem getNextSession_stored (cur : option JsValue) w :
  ∃ r, getNextSession cur w = Ok r w
    ∧ (r = None ↔ sessions w = ∅)
    ∧ (∀ s, r = Some s → sessions w !! email s = Some s.2).
Proof. apply getNextSession_result. Qed.

(** With two sessions or more, the session after a stored identity is
    another one. *)
Lemma getNextSession_other w e r0 :
  e ≠ EmptyString → sessions w !! e = Some r0 → (2 ≤ size (sessions w))%nat →
  ∃ s, getNextSession (Some (JsString e)) w = Ok (Some s) w
    ∧ email s ≠ e ∧ sessions w !! email s = Some s.2.
Proof.
  intros Hne He Hsize.
  assert ((e, r0) ∈ select_ordered (sessions w)) as Hin
    by by apply select_ordered_elem.
  apply list_elem_of_lookup in Hin as [i Hi].
  pose proof (lookup_lt_Some _ _ _ Hi) as Hlt.
  pose proof (getNextSession_successor w i (e, r0) Hne Hi) as Hrun.
  rewrite <-select_ordered_length in Hsize.
  set (l := select_ordered (sessions w)) in *.
  pose proof (Nat.mod_upper_bound (S i) (length l)) as Hj.
  destruct (l !! (S i `mod` length l)%nat) as [s|] eqn:Hs;
    [|apply lookup_ge_None in Hs; lia].
  exists s. split_and!; [done| |by apply (select_ordered_lookup _ _ _ Hs)].
  intros Heq.
  assert (i = (S i `mod` length l)%nat) as Hidx.
  { apply (NoDup_lookup _ _ _ e (select_ordered_NoDup (sessions w)));
      rewrite list_lookup_fmap; fold l; [by rewrite Hi|by rewrite Hs; simpl; f_equal]. }
  destruct (decide (S i < length l)%nat).
  - rewrite Nat.mod_small in Hidx by done. lia.
  - assert (S i = length l) as Hlast by lia.
    rewrite Hlast, Nat.Div0.mod_same in Hidx. lia.
Qed.

(** X10: when at least two sessions are stored, [getNextSession] given a
    stored, non-empty identity returns a session of another identity: the
    rotation never stays where it is. *)
Theorem getNextSession_moves_on w e :
  e ≠ EmptyString → is_Some (sessions w !! e) → (2 ≤ size (sessions w))%nat →
  ∃ s, getNextSession (Some (JsString e)) w = Ok (Some s) w ∧ email s ≠ e.
Proof.
  intros Hne [r0 He] Hsize.
  destruct (getNextSession_other w e r0 Hne He Hsize) as (s & ? & ? & _).
  eauto.
Qed.

Lemma size_two_keys (t : gmap string Row) a b :
  a ≠ b → is_Some (t !! a) → is_Some (t !! b) → (2 ≤ size t)%nat.
Proof.
  intros Hne Ha Hb.
  pose proof (map_size_delete_Some a t Ha) as Hsize.
  assert (size (delete a t) ≠ 0%nat); [|lia].
  apply (map_size_ne_0_lookup_2 _ b). by rewrite lookup_delete_ne.
Qed.

(** Loading a row that satisfies the row invariant, and reading back. *)
Lemma load_read_back w e r store now :
  row_ok e r → live w = Some store → sessions w !! e = Some r →
  ∃ w', loadSession e now w = Ok tt w'
    ∧ console w' = console w ++ [LogLoaded e; LogPleaseReload]
    ∧ sessions w' = alter (set_last_used now) e (sessions w)
    ∧ getCurrentSession w'
      = Ok (Some (mkCurrent (JsString e) (auth_status r) (google_data r))) w'.
Proof.
  intros Hok Hlive Hr.
  destruct (load_read_written w e r store now (row_ok_written e r Hok) Hlive Hr)
    as (w' & v & Hload & Hcons & Hs & Hread & Hparse & _).
  destruct Hok as (_ & Hstring & _).
  rewrite Hstring in Hparse. injection Hparse as <-. by exists w'.
Qed.

(** X11: with an identity in the live store and no other identity
    stored, [next] synchronises the active session.  When the identity
    is a string, it stops there with the already-on-the-only-session
    line: nothing is loaded, so the live store is not written.  When it
    is not a string, the comparison of the only session with it fails,
    and [next] goes on to load that session. *)
Theorem next_only_session w c w0 now1 now2 :
  getCurrentSession w = Ok (Some c) w0 →
  (∀ k, is_Some (sessions w !! k) → k = sql_text (cur_email c)) →
  ∃ w1,
    syncCurrent now1 (print LogSyncing w) = Ok tt w1
    ∧ live w1 = live w
    ∧ size (sessions w1) = 1%nat
    ∧ (∀ e, cur_email c = JsString e →
         next now1 now2 w = Ok tt (print (LogAlreadyOnly (cur_email c)) w1))
    ∧ (∀ truthy text, cur_email c = JsOther truthy text →
         next now1 now2 w
         = loadSession text now2 (print (LogSwitching text) w1)
         ∧ ∃ w', next now1 now2 w = Ok tt w'
             ∧ console w'
               = console w1
                 ++ [LogSwitching text; LogLoaded text; LogPleaseReload]).
Proof.
  intros Hcur Honly.
  pose proof (getCurrentSession_Some _ _ _ Hcur) as (-> & store & Hlive & _).
  assert (getCurrentSession (print LogSyncing w)
          = Ok (Some c) (print LogSyncing w)) as Hcur0
    by by apply (getCurrentSession_frame w).
  destruct (syncCurrent_post _ now1 c _ Hcur0)
    as (w1 & r & Hrun & Hl & Hs & _ & _ & Hcur1).
  simpl in Hl, Hs.
  assert (sessions w1 = {[sql_text (cur_email c) := r]}) as Hsingle.
  { rewrite Hs. apply map_eq. intros k.
    destruct (decide (k = sql_text (cur_email c))) as [->|Hk].
    - by rewrite lookup_insert_eq, lookup_singleton_eq.
    - rewrite lookup_insert_ne, lookup_singleton_ne by done.
      destruct (sessions w !! k) eqn:Hk'; [|done].
      destruct Hk. apply Honly. by rewrite Hk'. }
  assert (next now1 now2 w
          = if bool_decide (strict_eq (sql_text (cur_email c)) (cur_email c))
            then Ok tt (print (LogAlreadyOnly (cur_email c)) w1)
            else loadSession (sql_text (cur_email c)) now2
                   (print (LogSwitching (sql_text (cur_email c))) w1)) as Hnext.
  { rewrite next_unfold, Hrun, Hcur1. simpl.
    by rewrite (getNextSession_single _ w1 _ _ Hsingle). }
  exists w1. split_and!; [done..|by rewrite Hsingle, map_size_singleton| |].
  - intros e He. rewrite Hnext, He. simpl. by rewrite bool_decide_true.
  - intros truthy text He. rewrite Hnext, He. simpl. split; [done|].
    rewrite loadSession_unfold. simpl.
    rewrite Hsingle, He. simpl. rewrite lookup_singleton_eq, Hl, Hlive.
    eexists. split; [done|]. simpl. by rewrite <-!app_assoc.
Qed.

(** X12: with a string identity in the live store and some other
    identity stored, in a repository the script has built, [next]
    synchronises the active session and then loads the session that
    follows it in the rotation, which is another one; afterwards the live
    store reads with the blobs of that session and, for identity, the
    [email] of its auth blob, whose text is the key of that session; its
    [last_used] is the second clock reading. *)
Theorem next_switches w c w0 now1 now2 e k :
  reachable w →
  getCurrentSession w = Ok (Some c) w0 →
  cur_email c = JsString e →
  is_Some (sessions w !! k) → k ≠ e →
  ∃ w1 s w' v,
    syncCurrent now1 (print LogSyncing w) = Ok tt w1
    ∧ getNextSession (Some (cur_email c)) w1 = Ok (Some s) w1
    ∧ email s ≠ e
    ∧ next now1 now2 w = Ok tt w'
    ∧ console w'
      = console w1
        ++ [LogSwitching (email s); LogLoaded (email s); LogPleaseReload]
    ∧ getCurrentSession w'
      = Ok (Some (mkCurrent v (auth_status s.2) (google_data s.2))) w'
    ∧ sql_text v = email s
    ∧ last_used <$> sessions w' !! email s = Some now2.
Proof.
  intros Hreach Hcur He Hk Hne.
  destruct (getCurrentSession_Some _ _ _ Hcur)
    as (-> & store & Hlive & _ & _ & Hemail & _).
  assert (getCurrentSession (print LogSyncing w)
          = Ok (Some c) (print LogSyncing w)) as Hcur0
    by by apply (getCurrentSession_frame w).
  destruct (syncCurrent_post _ now1 c _ Hcur0)
    as (w1 & r & Hrun & Hl & Hs & _ & _ & Hcur1).
  rewrite He in *. simpl in Hl, Hs, Hemail.
  assert (2 ≤ size (sessions w1))%nat as Hsize.
  { apply (size_two_keys _ k e); [done|..]; rewrite Hs.
    - by rewrite lookup_insert_ne.
    - by rewrite lookup_insert_eq. }
  destruct (getNextSession_other w1 e r Hemail)
    as (s & Hnext & Hs_ne & Hs_in);
    [by rewrite Hs, lookup_insert_eq|done|].
  assert (row_written (email s) s.2) as Hok.
  { apply (reachable_row_written w Hreach).
    by rewrite Hs, lookup_insert_ne in Hs_in. }
  destruct (load_read_written (print (LogSwitching (email s)) w1)
              (email s) s.2 store now2 Hok)
    as (w' & v & Hload & Hcons & Hs' & Hread & _ & _ & Hv);
    [simpl; congruence|done|].
  exists w1, s, w', v. split_and!; try done.
  - rewrite next_unfold, Hrun, Hcur1. simpl. rewrite He, Hnext.
    rewrite bool_decide_false; [done|]. by intros [= ?].
  - rewrite Hcons. simpl. by rewrite <-app_assoc.
  - rewrite Hs'. simpl. by rewrite lookup_alter_eq, Hs_in.
Qed.

(** X13: the session that is active when [next] starts is never lost:
    whatever [next] goes on to do, afterwards the repository holds a row
    for that identity with the two blobs the live store had. *)
Theorem next_keeps_active_session w c w0 now1 now2 :
  getCurrentSession w = Ok (Some c) w0 →
  ∃ w' r,
    next now1 now2 w = Ok tt w'
    ∧ sessions w' !! sql_text (cur_email c) = Some r
    ∧ auth_status r = cur_auth_status c
    ∧ google_data r = cur_google_data c.
Proof.
  intros Hcur.
  destruct (getCurrentSession_Some _ _ _ Hcur) as (-> & store & Hlive & _).
  assert (getCurrentSession (print LogSyncing w)
          = Ok (Some c) (print LogSyncing w)) as Hcur0
    by by apply (getCurrentSession_frame w).
  destruct (syncCurrent_post _ now1 c _ Hcur0)
    as (w1 & r & Hrun & Hl & Hs & Ha & Hg & Hcur1).
  simpl in Hl.
  assert (sessions w1 !! sql_text (cur_email c) = Some r) as Hr
    by by rewrite Hs, lookup_insert_eq.
  rewrite next_unfold, Hrun, Hcur1. simpl.
  destruct (getNextSession_result (Some (cur_email c)) w1)
    as (res & -> & _ & Hstored).
  destruct res as [s|]; [|by eexists _, _].
  case_bool_decide; [by eexists _, _|].
  rewrite loadSession_unfold. simpl.
  rewrite (Hstored s eq_refl), Hl, Hlive.
  destruct (decide (email s = sql_text (cur_email c))) as [Heq|Hneq].
  - eexists _, (set_last_used now2 r). split; [done|]. simpl.
    by rewrite Heq, lookup_alter_eq, Hr.
  - eexists _, r. split; [done|]. simpl. by rewrite lookup_alter_ne, Hr.
Qed.

Lemma getCurrentSession_none_frame w w0 w' :
  getCurrentSession w = Ok None w0 → live w' = live w →
  ∃ w0', getCurrentSession w' = Ok None w0'
    ∧ live w0' = live w ∧ sessions w0' = sessions w'.
Proof.
  rewrite !getCurrentSession_unfold. intros Hcur Hl. rewrite Hl.
  repeat case_match; simplify_eq/=; eexists; split_and!; done.
Qed.

(** X14: when the live store holds no identity, [next] reports that,
    changes no row, and goes on as the rotation without a current
    identity: on an empty repository it prints the no-sessions line, and
    otherwise it loads the head of the rotation listing, the session with
    the least [last_used]. *)
Theorem next_without_active_session w w0 now1 now2 :
  getCurrentSession w = Ok None w0 →
  ∃ w1 w2,
    syncCurrent now1 (print LogSyncing w) = Ok tt w1
    ∧ sync_result (print LogSyncing w) (syncCurrent now1 (print LogSyncing w))
      = Some NoActiveSession
    ∧ getCurrentSession w1 = Ok None w2
    ∧ live w2 = live w ∧ sessions w2 = sessions w
    ∧ match head (select_ordered (sessions w)) with
      | None => next now1 now2 w = Ok tt (print LogNoSessions w2)
      | Some s =>
          next now1 now2 w
          = loadSession (email s) now2 (print (LogSwitching (email s)) w2)
      end.
Proof.
  intros Hcur.
  destruct (getCurrentSession_none_frame w w0 (print LogSyncing w) Hcur eq_refl)
    as (w1 & Hcur1 & Hl1 & Hs1).
  destruct (getCurrentSession_none_frame w w0 (print LogNoActiveSession w1) Hcur)
    as (w2 & Hcur2 & Hl2 & Hs2); [done|].
  simpl in Hs1, Hs2.
  destruct (syncCurrent_none (print LogSyncing w) now1 w1 Hcur1)
    as (w1' & Hrun & Hres & _).
  exists (print LogNoActiveSession w1), w2.
  assert (syncCurrent now1 (print LogSyncing w)
          = Ok tt (print LogNoActiveSession w1)) as Hsync
    by by rewrite syncCurrent_unfold, Hcur1.
  split_and!; [done|done|done|done|congruence|].
  rewrite next_unfold, Hsync, Hcur2. simpl.
  rewrite (getNextSession_first None w2) by done.
  rewrite Hs2, Hs1. by destruct (head _).
Qed.

End Orchestration.

(** ** Rows over a history *)

Section Rows.
Context `{!JsonParser}.
Implicit Types (w : World) (t : gmap string Row).

Lemma next_sessions now1 now2 w :
  let t1 := sessions (world_of (syncCurrent now1 (print LogSyncing w))) in
  sessions (world_of (next now1 now2 w)) = t1
  ∨ ∃ e, sessions (world_of (next now1 now2 w))
         = alter (set_last_used now2) e t1.
Proof.
  simpl. rewrite next_unfold.
  destruct (syncCurrent now1 (print LogSyncing w)) as [[] w1|w1|code w1];
    simpl; [|by left..].
  pose proof (getCurrentSession_world w1) as [_ Hs2].
  destruct (getCurrentSession w1) as [current w2|w2|code w2];
    simpl in *; [|by left..].
  rewrite <-Hs2.
  destruct (getNextSession_pure (cur_email <$> current) w2) as [[s|] ->];
    [|by left].
  pose proof (loadSession_world (email s) now2
                (print (LogSwitching (email s)) w2)) as Hload.
  destruct current as [c|]; [case_bool_decide; [by left|]|];
    destruct Hload as [->| ->]; eauto.
Qed.

(** One event that does not delete [k] keeps the row of [k], with its
    [created_at] and [name]. *)
Lemma step_keeps_row ev w k r :
  ¬ deletes k ev → sessions w !! k = Some r →
  ∃ r', sessions (step ev w) !! k = Some r'
    ∧ created_at r' = created_at r ∧ name r' = name r.
Proof.
  intros Hdel Hr.
  assert (∀ e now t r0, t !! k = Some r0 →
            ∃ r', alter (set_last_used now) e t !! k = Some r'
              ∧ created_at r' = created_at r0 ∧ name r' = name r0) as Halter.
  { intros e now t r0 Hr0. destruct (decide (k = e)) as [->|Hk].
    - rewrite lookup_alter_eq, Hr0. by eexists.
    - rewrite lookup_alter_ne by done. by eexists. }
  destruct ev as [[| |arg|arg] now1 now2|store]; simpl.
  - destruct (syncCurrent_rows (print LogSyncing w) now1) as (_ & Hrows & _).
    destruct (Hrows k r Hr) as (r1 & Hr1 & _ & Hc & Hn & _).
    destruct (next_sessions now1 now2 w) as [->|[e ->]].
    + exists r1. by rewrite Hc, Hn.
    + destruct (Halter e now2 _ r1 Hr1) as (r' & ? & ? & ?).
      exists r'. split_and!; [done|congruence..].
  - destruct (syncCurrent_rows w now1) as (_ & Hrows & _).
    destruct (Hrows k r Hr) as (r1 & Hr1 & _ & Hc & Hn & _). by exists r1.
  - destruct (truthy_opt arg) as [e|]; simpl; [|by exists r].
    unfold loadByEmail.
    destruct (loadSession_world e now1 w) as [->| ->]; [by exists r|].
    by apply Halter.
  - simpl in Hdel. destruct (truthy_opt arg) as [e|]; simpl; [|by exists r].
    rewrite lookup_delete_ne by congruence. by exists r.
  - by exists r.
Qed.

(** X15: rows are destroyed by [delete] only.  Over any history that
    holds no [delete] of an identity, the row stored for that identity
    stays stored, with the [created_at] (and the [name]) it had. *)
Theorem rows_persist evs w k r :
  Forall (λ ev, ¬ deletes k ev) evs →
  sessions w !! k = Some r →
  ∃ r', sessions (run evs w) !! k = Some r'
    ∧ created_at r' = created_at r ∧ name r' = name r.
Proof.
  revert w r. induction evs as [|ev evs IH]; intros w r Hall Hr;
    [by exists r|].
  apply Forall_cons in Hall as [Hev Hall].
  destruct (step_keeps_row ev w k r Hev Hr) as (r1 & Hr1 & Hc1 & Hn1).
  destruct (IH (step ev w) r1 Hall Hr1) as (r' & Hr' & Hc & Hn).
  exists r'. rewrite run_cons. split_and!; [done|congruence..].
Qed.

Lemma repo_write_name now t t' :
  repo_write now t t' →
  (∀ k r, t !! k = Some r → name r = None) →
  ∀ k r, t' !! k = Some r → name r = None.
Proof.
  intros Hw Hinv k r. destruct Hw as [t c _ _|t c _|t e now'|t e].
  - rewrite lookup_insert. case_decide; [|by apply Hinv]. by intros [= <-].
  - rewrite lookup_alter. case_decide; [|by apply Hinv].
    destruct (t !! sql_text (cur_email c)) as [r0|] eqn:Hr0; simpl; [|done].
    intros [= <-]. simpl. by apply (Hinv (sql_text (cur_email c)) r0).
  - rewrite lookup_alter. case_decide as Hk; [|by apply Hinv]. subst k.
    destruct (t !! e) as [r0|] eqn:Hr0; simpl; [|done].
    intros [= <-]. simpl. by apply (Hinv e r0).
  - rewrite lookup_delete. case_decide; [done|by apply Hinv].
Qed.

Lemma writes_name now t t' :
  rtc (repo_write now) t t' →
  (∀ k r, t !! k = Some r → name r = None) →
  ∀ k r, t' !! k = Some r → name r = None.
Proof. induction 1; eauto using repo_write_name. Qed.

(** X16: the script never fills in the [name] column: in every
    repository it has built, the [name] of every row is NULL. *)
Theorem name_never_set w k r :
  reachable w → sessions w !! k = Some r → name r = None.
Proof.
  intros (store & evs & ->).
  assert (∀ w0, (∀ k r, sessions w0 !! k = Some r → name r = None) →
                ∀ k r, sessions (run evs w0) !! k = Some r → name r = None)
    as Hrun.
  { induction evs as [|ev evs IH]; intros w0 Hinv; [done|].
    rewrite run_cons. apply IH.
    destruct (step_writes ev w0) as (now & Hrtc).
    by apply (writes_name now (sessions w0)). }
  apply (Hrun (fresh store)). by intros k' r'.
Qed.

Lemma repo_write_ordered now t t' :
  repo_write now t t' → stamps_ordered now t → stamps_ordered now t'.
Proof.
  intros Hw Hs k r. destruct Hw as [t c _ _|t c _|t e now'|t e].
  - rewrite lookup_insert. case_decide; [|by apply Hs].
    intros [= <-]. simpl. lia.
  - rewrite lookup_alter. case_decide; [|by apply Hs].
    destruct (t !! sql_text (cur_email c)) as [r0|] eqn:Hr0; simpl; [|done].
    intros [= <-]. simpl. destruct (Hs (sql_text (cur_email c)) r0 Hr0). lia.
  - rewrite lookup_alter. case_decide as Hk; [|by apply Hs]. subst k.
    destruct (t !! e) as [r0|] eqn:Hr0; simpl; [|done].
    intros [= <-]. simpl. by apply (Hs e r0).
  - rewrite lookup_delete. case_decide; [done|by apply Hs].
Qed.

Lemma writes_ordered now t t' :
  rtc (repo_write now) t t' → stamps_ordered now t → stamps_ordered now t'.
Proof. induction 1; eauto using repo_write_ordered. Qed.

Lemma stamps_ordered_mono (t0 t1 : Z) t :
  t0 ≤ t1 → stamps_ordered t0 t → stamps_ordered t1 t.
Proof. intros Hle Hs k r Hr. destruct (Hs k r Hr). lia. Qed.

(** X17: along a history whose clock readings are chronological, started
    from rows whose stamps are in order, every row has
    [created_at ≤ updated_at], and no [updated_at] lies after the last
    reading. *)
Theorem stamps_stay_ordered evs w (t0 : Z) :
  chronological t0 evs → stamps_ordered t0 (sessions w) →
  stamps_ordered (end_time t0 evs) (sessions (run evs w)).
Proof.
  revert w t0. induction evs as [|[c n1 n2|store] evs IH]; intros w t0; simpl;
    [done| |by intros ??; apply IH].
  intros (? & ? & Hc) Hs. apply IH; [done|].
  apply (stamps_ordered_mono n1); [done|].
  assert (stamps_ordered n1 (sessions w)) as Hs1
    by by apply (stamps_ordered_mono t0).
  by apply (writes_ordered n1 (sessions w)); [apply main_writes|].
Qed.

End Rows.

(** ** Loading and the rotation order *)

Section LeastRecentlyUsed.
Implicit Types (w : World) (t : gmap string Row).

(** X18: a session loaded at a clock reading later than the [last_used]
    of every other session becomes the last of the rotation listing, the
    others keeping their order; so the session [getNextSession] selects
    after it is the head of the listing, the least recently used one. *)
Theorem loaded_session_goes_last w e r store now :
  e ≠ EmptyString →
  sessions w !! e = Some r → live w = Some store →
  (∀ k r', k ≠ e → sessions w !! k = Some r' → last_used r' < now) →
  ∃ w',
    loadSession e now w = Ok tt w'
    ∧ select_ordered (sessions w')
      = select_ordered (delete e (sessions w)) ++ [(e, set_last_used now r)]
    ∧ getNextSession (Some (JsString e)) w'
      = Ok (head (select_ordered (sessions w'))) w'.
Proof.
  intros Hne Hr Hlive Hlater.
  rewrite loadSession_unfold, Hr, Hlive. eexists. split; [done|]. simpl.
  set (l0 := select_ordered (delete e (sessions w))).
  assert (select_ordered (alter (set_last_used now) e (sessions w))
          = l0 ++ [(e, set_last_used now r)]) as Hlist
    by by apply select_ordered_touch.
  split; [done|].
  pose proof (getNextSession_successor
                (print LogPleaseReload (print (LogLoaded e)
                   (mkWorld
                      (Some (<[GOOGLE_KEY := google_data r]>
                               (<[AUTH_KEY := auth_status r]> store)))
                      (alter (set_last_used now) e (sessions w))
                      (console w))))
                (length l0) (e, set_last_used now r) Hne) as Hnext.
  simpl in Hnext. rewrite Hlist in Hnext.
  change (email (e, set_last_used now r)) with e in Hnext.
  rewrite Hnext.
  - f_equal. rewrite length_app. simpl.
    replace (S (length l0)) with (length l0 + 1)%nat by lia.
    rewrite Nat.Div0.mod_same. by rewrite <-head_lookup, Hlist.
  - by rewrite lookup_app_r, Nat.sub_diag.
Qed.

End LeastRecentlyUsed.

(** ** Pressing [next] again and again *)

Section RoundRobin.
Context `{!JsonParser}.
Implicit Types (w : World) (c : Current) (t : gmap string Row).

Lemma filter_all {A} (P : A → Prop) `{!∀ x, Decision (P x)} (l : list A) :
  Forall P l → filter P l = l.
Proof.
  induction 1; [done|]. rewrite filter_cons, decide_True by done. by f_equal.
Qed.

Lemma rotate_rotate {A} (a b : nat) (l : list A) :
  rotate a (rotate b l) = rotate (a + b) l.
Proof.
  apply list_eq. intros i.
  destruct (decide (i < length l)%nat) as [Hi|Hi].
  - rewrite lookup_rotate_r by (by rewrite length_rotate).
    rewrite length_rotate.
    rewrite lookup_rotate_r by (apply rotate_nat_add_lt; lia).
    rewrite lookup_rotate_r by done.
    f_equal. unfold rotate_nat_add.
    rewrite Z2Nat.id by (apply Z.mod_pos; lia).
    rewrite Zplus_mod_idemp_r. f_equal. f_equal. lia.
  - rewrite !lookup_ge_None_2; [done|rewrite ?length_rotate; lia..].
Qed.

(** In a settled state [next] finds the active session unchanged, and the
    session after it is the head of the rotation listing; that is the
    active session itself only when no other is stored. *)
Lemma next_head w c bound now1 :
  settled bound c w →
  ∃ s rest w1,
    select_ordered (sessions w) = s :: rest
    ∧ syncCurrent now1 (print LogSyncing w) = Ok tt w1
    ∧ live w1 = live w ∧ sessions w1 = sessions w
    ∧ getCurrentSession w1 = Ok (Some c) w1
    ∧ getNextSession (Some (cur_email c)) w1 = Ok (Some s) w1
    ∧ (strict_eq (email s) (cur_email c) → rest = [])
    ∧ (rest = [] → strict_eq (email s) (cur_email c)).
Proof.
  intros (Hok & Hcur & (r & Hr & Ha & Hg) & Hlast & Hbound).
  destruct (getCurrentSession_Some _ _ _ Hcur)
    as (_ & store & Hlive & _ & _ & Hemail & _).
  assert (getCurrentSession (print LogSyncing w)
          = Ok (Some c) (print LogSyncing w)) as Hcur0
    by by apply (getCurrentSession_frame w).
  destruct (syncCurrent_unchanged _ now1 c _ r Hcur0 Hr Ha Hg)
    as (w1 & Hrun & _ & Hl1 & Hs1).
  simpl in Hl1, Hs1.
  assert (getCurrentSession w1 = Ok (Some c) w1) as Hcur1
    by by apply (getCurrentSession_frame w).
  unfold rotation in Hlast. rewrite fmap_last in Hlast.
  destruct (last (select_ordered (sessions w))) as [sl|] eqn:Hsl; [|done].
  simpl in Hlast. injection Hlast as Hsl_email.
  rewrite last_lookup in Hsl.
  pose proof (lookup_lt_Some _ _ _ Hsl) as Hlen.
  pose proof (getNextSession_successor w1
                (pred (length (select_ordered (sessions w)))) sl) as Hnext.
  rewrite Hs1 in Hnext.
  change (sl.1) with (email sl) in Hsl_email.
  rewrite <-Hsl_email in *. simpl in Hemail. specialize (Hnext Hemail Hsl).
  replace (S (pred (length (select_ordered (sessions w)))))
    with (length (select_ordered (sessions w))) in Hnext by lia.
  rewrite Nat.Div0.mod_same in Hnext.
  destruct (select_ordered (sessions w)) as [|s rest] eqn:Hlist;
    [simpl in Hlen; lia|].
  exists s, rest, w1. split_and!; try done.
  - intros [= Heq]. destruct rest as [|s2 rest]; [done|]. exfalso.
    pose proof (select_ordered_NoDup (sessions w)) as Hnd.
    rewrite Hlist in Hnd.
    assert (0 = pred (length (s :: s2 :: rest)))%nat as H0; [|simpl in H0; lia].
    apply (NoDup_lookup _ _ _ (email sl) Hnd).
    + simpl. by f_equal.
    + rewrite list_lookup_fmap, Hsl. simpl. by f_equal.
  - intros ->. simpl in Hsl. by simplify_eq.
Qed.

(** Loading a session at a reading later than the [last_used] of the
    others settles the state on that session. *)
Lemma load_settled w e r store now :
  map_Forall row_ok (sessions w) →
  live w = Some store → sessions w !! e = Some r →
  (∀ k r', k ≠ e → sessions w !! k = Some r' → last_used r' < now) →
  ∃ w', loadSession e now w = Ok tt w'
    ∧ select_ordered (sessions w')
      = select_ordered (delete e (sessions w)) ++ [(e, set_last_used now r)]
    ∧ settled now (mkCurrent (JsString e) (auth_status r) (google_data r)) w'.
Proof.
  intros Hok Hlive Hr Hlater.
  destruct (load_read_back w e r store now (Hok _ _ Hr) Hlive Hr)
    as (w' & Hload & _ & Hs' & Hread).
  pose proof (select_ordered_touch _ _ _ _ Hr Hlater) as Hlist.
  rewrite <-Hs' in Hlist.
  exists w'. split; [done|]. split; [done|]. split_and!.
  - rewrite Hs'. intros k r' Hk.
    destruct (decide (k = e)) as [->|Hk'].
    + rewrite lookup_alter_eq, Hr in Hk. simpl in Hk.
      injection Hk as <-. apply (Hok _ _ Hr).
    + rewrite lookup_alter_ne in Hk by done. by apply (Hok k).
  - done.
  - exists (set_last_used now r). simpl.
    by rewrite Hs', lookup_alter_eq, Hr.
  - unfold rotation. rewrite Hlist, fmap_app. simpl. by rewrite last_snoc.
  - rewrite Hs'. intros k r' Hk.
    destruct (decide (k = e)) as [->|Hk'].
    + rewrite lookup_alter_eq, Hr in Hk. simpl in Hk.
      injection Hk as <-. simpl. lia.
    + rewrite lookup_alter_ne in Hk by done.
      pose proof (Hlater k r' Hk' Hk). simpl in *. lia.
Qed.

(** One [next] in a settled state with two sessions or more. *)
Lemma next_press w c bound now1 now2 :
  settled bound c w → (2 ≤ size (sessions w))%nat → bound < now2 →
  ∃ s rest w',
    select_ordered (sessions w) = s :: rest
    ∧ next now1 now2 w = Ok tt w'
    ∧ select_ordered (sessions w')
      = rest ++ [(email s, set_last_used now2 s.2)]
    ∧ settled now2
        (mkCurrent (JsString (email s)) (auth_status s.2) (google_data s.2))
        w'.
Proof.
  intros Hset Hsize Hlt.
  destruct (next_head w c bound now1 Hset)
    as (s & rest & w1 & Hlist & Hrun & Hl1 & Hs1 & Hcur1 & Hnext & Hone & _).
  destruct Hset as (Hok & Hcur & _ & _ & Hbound).
  destruct (getCurrentSession_Some _ _ _ Hcur) as (_ & store & Hlive & _).
  assert (¬ strict_eq (email s) (cur_email c)) as Hne.
  { intros Heq. rewrite <-select_ordered_length, Hlist, (Hone Heq) in Hsize.
    simpl in Hsize. lia. }
  assert (sessions w !! email s = Some s.2) as Hs_in.
  { apply select_ordered_elem. rewrite Hlist. by left. }
  destruct (load_settled (print (LogSwitching (email s)) w1)
              (email s) s.2 store now2)
    as (w' & Hload & Hlist' & Hset'); simpl; rewrite ?Hs1; [done|congruence|done| |].
  { intros k r' _ Hk. pose proof (Hbound k r' Hk). simpl in *. lia. }
  simpl in Hlist'. rewrite Hs1 in Hlist'.
  exists s, rest, w'. split_and!; [done| | |done].
  { rewrite next_unfold, Hrun, Hcur1. simpl. rewrite Hnext.
    by rewrite bool_decide_false. }
  rewrite Hlist'. f_equal. rewrite select_ordered_delete, Hlist.
  pose proof (select_ordered_NoDup (sessions w)) as Hnd.
  rewrite Hlist, fmap_cons in Hnd. apply NoDup_cons in Hnd as [Hnotin _].
  rewrite filter_cons, decide_False by (by intros ?).
  apply filter_all, Forall_forall. intros x Hx Heq.
  apply Hnotin. change (s.1) with (email s). rewrite <-Heq.
  by apply list_elem_of_fmap_2.
Qed.

(** One invocation of [next] in a settled state, with any number of
    sessions: the state is settled again and the rotation has moved on by
    one. *)
Lemma press_settled w c bound now1 now2 :
  settled bound c w → bound < now2 →
  ∃ c', settled now2 c' (step (EvRun CmdNext now1 now2) w)
    ∧ rotation (step (EvRun CmdNext now1 now2) w) = rotate 1 (rotation w).
Proof.
  intros Hset Hlt.
  destruct (decide (2 ≤ size (sessions w))%nat) as [Hsize|Hsize].
  - destruct (next_press w c bound now1 now2 Hset Hsize Hlt)
      as (s & rest & w' & Hlist & Hrun & Hlist' & Hset').
    eexists. simpl. rewrite Hrun. simpl. split; [exact Hset'|].
    rewrite <-select_ordered_length, Hlist in Hsize. simpl in Hsize.
    unfold rotation. rewrite Hlist', Hlist, fmap_app.
    unfold rotate.
    rewrite Nat.mod_small by (rewrite length_fmap; simpl; lia).
    done.
  - destruct (next_head w c bound now1 Hset)
      as (s & rest & w1 & Hlist & Hrun & Hl1 & Hs1 & Hcur1 & Hnext & _ & Hone).
    rewrite <-select_ordered_length, Hlist in Hsize. simpl in Hsize.
    assert (rest = []) as -> by (destruct rest; [done|simpl in Hsize; lia]).
    specialize (Hone eq_refl).
    destruct Hset as (Hok & Hcur & Hsync & Hlast & Hbound).
    exists c. simpl. rewrite next_unfold, Hrun, Hcur1. simpl. rewrite Hnext.
    rewrite bool_decide_true by done. simpl.
    split.
    + split_and!; simpl; rewrite ?Hs1; try done.
      * by apply (getCurrentSession_frame w1).
      * unfold rotation in *. simpl. by rewrite Hs1.
      * intros k r' Hk. pose proof (Hbound k r' Hk). simpl in *. lia.
    + unfold rotation. simpl. by rewrite Hs1, Hlist.
Qed.

(** X21: one [next] in a settled state with two sessions or more loads
    the head of the rotation listing, the session used least recently,
    and moves it to the end of the listing, the others keeping their
    order; the state is settled again, on the loaded session. *)
Theorem next_rotates w c bound now1 now2 :
  settled bound c w → (2 ≤ size (sessions w))%nat → bound < now2 →
  ∃ s rest w',
    select_ordered (sessions w) = s :: rest
    ∧ next now1 now2 w = Ok tt w'
    ∧ select_ordered (sessions w')
      = rest ++ [(email s, set_last_used now2 s.2)]
    ∧ settled now2
        (mkCurrent (JsString (email s)) (auth_status s.2) (google_data s.2))
        w'.
Proof. apply next_press. Qed.

(** X22: round-robin.  From a settled state, invocations of [next] at
    ever later readings, with nothing else writing to the stores, go
    through the sessions in the order of the rotation listing: after [k]
    of them the listing is the first one rotated by [k], and the live
    store reads as the identity at position [k - 1] of the first listing,
    counted cyclically. *)
Theorem next_round_robin w c bound nows :
  settled bound c w → ever_later bound nows →
  let w' := run (presses nows) w in
  let n := size (sessions w) in
  rotation w' = rotate (length nows) (rotation w)
  ∧ ∃ c', settled (end_time bound (presses nows)) c' w'
      ∧ JsString <$> rotation w !! ((length nows + n - 1) `mod` n)%nat
        = Some (cur_email c').
Proof.
  intros Hset Hlater. simpl.
  assert (rotation (run (presses nows) w) = rotate (length nows) (rotation w)
          ∧ ∃ c', settled (end_time bound (presses nows)) c'
                    (run (presses nows) w)) as [Hrot (c' & Hset')].
  { revert w c bound Hset Hlater.
    induction nows as [|n nows IH]; intros w c bound Hset Hlater.
    - simpl. split; [|by exists c].
      unfold rotate. by rewrite Nat.Div0.mod_0_l, drop_0, take_0, app_nil_r.
    - destruct Hlater as [Hlt Hlater].
      destruct (press_settled w c bound n.1 n.2 Hset Hlt) as (c1 & Hset1 & Hrot1).
      destruct (IH _ c1 n.2 Hset1 Hlater) as [Hrot Hc'].
      unfold presses in *. rewrite fmap_cons, run_cons. split; [|exact Hc'].
      rewrite Hrot, Hrot1, rotate_rotate. f_equal. simpl. lia. }
  split; [done|]. exists c'. split; [done|].
  destruct Hset' as (_ & _ & _ & Hlast & _).
  rewrite Hrot, last_lookup, length_rotate in Hlast.
  assert (length (rotation w) = size (sessions w)) as Hlen
    by (unfold rotation; by rewrite length_fmap, select_ordered_length).
  assert (0 < length (rotation w))%nat as Hpos.
  { destruct Hset as (_ & _ & _ & Hl & _).
    destruct (rotation w); [done|simpl; lia]. }
  rewrite lookup_rotate_r in Hlast by lia.
  rewrite <-Hlast, Hlen. f_equal. f_equal. unfold rotate_nat_add.
  rewrite <-Hlen.
  rewrite <-Nat2Z.inj_add, <-Nat2Z.inj_mod, Nat2Z.id. f_equal. lia.
Qed.

(** X23: in a repository whose rows satisfy the row invariant of the
    specification (the key is the string the auth blob has for [email]),
    loading a stored session with a usable live store, at a reading
    later than the [last_used] of every other session, settles the state
    on that session: the live store reads as it, with the blobs of its
    row, and it is the last of the rotation listing; from there [next]
    goes round. *)
Theorem loadSession_settles w e r store now :
  map_Forall row_ok (sessions w) →
  live w = Some store → sessions w !! e = Some r →
  (∀ k r', k ≠ e → sessions w !! k = Some r' → last_used r' < now) →
  ∃ w', loadSession e now w = Ok tt w'
    ∧ getCurrentSession w'
      = Ok (Some (mkCurrent (JsString e) (auth_status r) (google_data r))) w'
    ∧ settled now (mkCurrent (JsString e) (auth_status r) (google_data r)) w'.
Proof.
  intros Hok Hlive Hr Hlater.
  destruct (load_settled w e r store now Hok Hlive Hr Hlater)
    as (w' & Hload & _ & Hset).
  exists w'. split_and!; [done| |done]. by destruct Hset as (_ & ? & _).
Qed.

End RoundRobin.

(** ** The [list] command *)

Section ListCommand.
Context `{!JsonParser} `{!ListingOrder}.
Hypothesis lawful : listing_lawful.
Implicit Types (w : World) (l : list Session).

Lemma listing_length t : length (select_by_last_used_desc t) = size t.
Proof. destruct (lawful t) as [Hp _]. rewrite Hp. apply length_map_to_list. Qed.

Lemma listing_NoDup t : NoDup (select_by_last_used_desc t).*1.
Proof. destruct (lawful t) as [Hp _]. rewrite Hp. apply NoDup_fst_map_to_list. Qed.

Lemma listing_elem t k :
  k ∈ (select_by_last_used_desc t).*1 ↔ is_Some (t !! k).
Proof.
  destruct (lawful t) as [Hp _]. rewrite list_elem_of_fmap. split.
  - intros ([k' r] & -> & Hin). rewrite Hp in Hin.
    apply elem_of_map_to_list in Hin. eauto.
  - intros [r Hr]. exists (k, r). split; [done|]. rewrite Hp.
    by apply elem_of_map_to_list.
Qed.

Lemma listSessions_unfold w :
  listSessions w =
  if bool_decide (size (sessions w) = 0%nat) then Ok [LineNoSessionsStored] w
  else match getCurrentSession w with
       | Ok current w' =>
           Ok (LineHeader
               :: list_lines current 0 (select_by_last_used_desc (sessions w))) w'
       | Uncaught w' => Uncaught w'
       | Exited code w' => Exited code w'
       end.
Proof.
  unfold listSessions. unfold mbind at 1 2, M_bind at 1 2, bind at 1 2.
  unfold initSessionDB. rewrite listing_length.
  case_bool_decide; [done|].
  unfold mbind, M_bind, bind. by destruct (getCurrentSession w).
Qed.

Lemma list_lines_length current index l :
  length (list_lines current index l) = (3 * length l)%nat.
Proof. revert index. induction l as [|s l IH]; intros index; simpl; [done|]. rewrite IH. lia. Qed.

Lemma list_lines_listed current index l :
  listed (list_lines current index l) = l.*1.
Proof.
  revert index. induction l as [|s l IH]; intros index; [done|].
  simpl. unfold listed in *. simpl. by rewrite IH.
Qed.

Lemma list_lines_numbers current index l :
  numbers (list_lines current index l) = seq (index + 1) (length l).
Proof.
  revert index. induction l as [|s l IH]; intros index; [done|].
  simpl. unfold numbers in *. simpl. rewrite IH; repeat f_equal; lia.
Qed.

Lemma marked_cons line lines :
  marked (line :: lines)
  = match line with
    | LineEntry true _ e => e :: marked lines
    | _ => marked lines
    end.
Proof. by destruct line as [| |[] ? ?| |]. Qed.

Lemma list_lines_cons current index s l :
  list_lines current index (s :: l)
  = LineEntry
      match current with
      | Some current => bool_decide (strict_eq (email s) (cur_email current))
      | None => false
      end (index + 1) (email s)
    :: LineLastUsed
         (if bool_decide (last_used s.2 = 0) then None else Some (last_used s.2))
    :: LineCreated (created_at s.2)
    :: list_lines current (S index) l.
Proof. done. Qed.

Lemma list_lines_marked_some c index l :
  marked (list_lines (Some c) index l)
  = filter (λ e, strict_eq e (cur_email c)) l.*1.
Proof.
  revert index. induction l as [|s l IH]; intros index; [done|].
  rewrite fmap_cons, filter_cons, list_lines_cons, !marked_cons, IH.
  unfold email.
  destruct (decide (strict_eq s.1 (cur_email c))) as [Heq|Hne].
  - by rewrite bool_decide_true.
  - by rewrite bool_decide_false.
Qed.

Lemma list_lines_marked_string c e index l :
  cur_email c = JsString e →
  marked (list_lines (Some c) index l) = filter (λ x, x = e) l.*1.
Proof.
  intros He. rewrite list_lines_marked_some, He.
  apply list_filter_iff. intros x. unfold strict_eq. split; congruence.
Qed.

Lemma list_lines_marked_other c truthy text index l :
  cur_email c = JsOther truthy text →
  marked (list_lines (Some c) index l) = [].
Proof.
  intros He. rewrite list_lines_marked_some, He.
  induction l.*1 as [|x l' IH]; [done|].
  by rewrite filter_cons, decide_False.
Qed.

Lemma list_lines_marked_none index l :
  marked (list_lines None index l) = [].
Proof.
  revert index. induction l as [|s l IH]; intros index; [done|].
  by rewrite list_lines_cons, !marked_cons, IH.
Qed.

Lemma filter_NoDup_eq (l : list string) (e : string) :
  NoDup l → filter (λ x, x = e) l = if decide (e ∈ l) then [e] else [].
Proof.
  induction 1 as [|x l Hx Hnd IH]; [done|].
  rewrite filter_cons, IH. destruct (decide (x = e)) as [->|Hxe].
  - rewrite decide_False by done.
    by rewrite decide_True by (by left).
  - destruct (decide (e ∈ l)) as [Hin|Hnin].
    + by rewrite decide_True by (by right).
    + rewrite decide_False; [done|]. intros [?|?]%elem_of_cons; congruence.
Qed.

(** X19: [listSessions] changes neither store.  On an empty repository
    it prints the no-sessions line without reading the live store, so it
    completes even when the live store is unusable; on a repository with
    sessions it reads the live store, ends in an uncaught error when that
    is unusable, and otherwise prints the header and three lines per
    stored session. *)
Theorem listSessions_reads w :
  (sessions w = ∅ → listSessions w = Ok [LineNoSessionsStored] w)
  ∧ (sessions w ≠ ∅ → live w = None → listSessions w = Uncaught w)
  ∧ (sessions w ≠ ∅ → is_Some (live w) →
     ∃ lines w', listSessions w = Ok lines w'
       ∧ live w' = live w ∧ sessions w' = sessions w
       ∧ head lines = Some LineHeader
       ∧ length lines = (1 + 3 * size (sessions w))%nat).
Proof.
  rewrite listSessions_unfold. split_and!.
  - intros ->. by rewrite map_size_empty.
  - intros Hne Hlive. rewrite bool_decide_false by by apply map_size_non_empty_iff.
    by rewrite getCurrentSession_unfold, Hlive.
  - intros Hne [store Hlive].
    rewrite bool_decide_false by by apply map_size_non_empty_iff.
    pose proof (getCurrentSession_world w) as [Hl Hs].
    destruct (getCurrentSession w) as [current w'|w'|code w'] eqn:Hcur.
    + eexists _, _. split_and!; [done..|]. simpl.
      by rewrite list_lines_length, listing_length.
    + destruct (getCurrentSession_Uncaught _ _ Hcur). congruence.
    + by destruct (getCurrentSession_no_exit w code w').
Qed.

(** X7: the status a command other than the installation ends with.
    For [next], [sync], [load] and [delete] it is 0 or 1, and it is 1 in
    exactly two cases: the argument of [load] or [delete] is missing or
    empty (a usage line is printed on standard error and the process
    exits), or the command reaches the live store and the live store is
    unusable (an uncaught error).  For [list] it is 1 exactly when
    sessions are stored and the live store is unusable.  Whenever the
    status is 1, neither store has been changed. *)
Theorem main_exit_status command now1 now2 w :
  (let r := main command now1 now2 w in
   (exit_status r = 0 ∨ exit_status r = 1)
   ∧ (exit_status r = 1 ↔
      usage_error command ∨ (live w = None ∧ needs_live_store command w))
   ∧ (crashed r = true ↔ live w = None ∧ needs_live_store command w)
   ∧ (usage_error command →
      ∃ m, r = Exited 1 (print m w) ∧ on_stderr m = true)
   ∧ (exit_status r = 1 →
      live (world_of r) = live w ∧ sessions (world_of r) = sessions w))
  ∧ (let r := listSessions w in
     (exit_status r = 0 ∨ exit_status r = 1)
     ∧ (exit_status r = 1 ↔ live w = None ∧ sessions w ≠ ∅)
     ∧ (crashed r = true ↔ live w = None ∧ sessions w ≠ ∅)
     ∧ live (world_of r) = live w ∧ sessions (world_of r) = sessions w).
Proof.
  split; [apply main_status|]. simpl.
  pose proof (getCurrentSession_world w) as [Hl Hs].
  rewrite listSessions_unfold. case_bool_decide as Hsize.
  - apply map_size_empty_iff in Hsize. simpl.
    split_and!; [by left|split; [done|by intros [_ ?]]
                |split; [done|by intros [_ ?]]|done..].
  - assert (sessions w ≠ ∅) as Hne by by apply map_size_non_empty_iff.
    destruct (getCurrentSession w) as [current w'|w'|code w'] eqn:Hcur; simpl.
    + split_and!; [by left| | |done..].
      * split; [done|]. intros [Hnone _].
        by rewrite getCurrentSession_unfold, Hnone in Hcur.
      * split; [done|]. intros [Hnone _].
        by rewrite getCurrentSession_unfold, Hnone in Hcur.
    + destruct (getCurrentSession_Uncaught _ _ Hcur) as [-> Hnone].
      split_and!; [by right|done..].
    + by destruct (getCurrentSession_no_exit w code w').
Qed.

(** X20: a listing shows every stored session exactly once, numbered
    from 1 in the order shown, and marks the entries whose identity is
    strictly equal to the one the live store holds: one entry when that
    identity is a string and is stored, none when it is a string that is
    not stored, when it is not a string (whether or not a session is
    stored under its text), or when the live store holds no identity. *)
Theorem listSessions_marks w lines w' current w0 :
  sessions w ≠ ∅ →
  listSessions w = Ok lines w' →
  getCurrentSession w = Ok current w0 →
  NoDup (listed lines)
  ∧ (∀ k, k ∈ listed lines ↔ is_Some (sessions w !! k))
  ∧ numbers lines = seq 1 (size (sessions w))
  ∧ (∀ c e, current = Some c → cur_email c = JsString e →
       is_Some (sessions w !! e) → marked lines = [e])
  ∧ (∀ c e, current = Some c → cur_email c = JsString e →
       sessions w !! e = None → marked lines = [])
  ∧ (∀ c truthy text, current = Some c →
       cur_email c = JsOther truthy text → marked lines = [])
  ∧ (current = None → marked lines = []).
Proof.
  intros Hne. rewrite listSessions_unfold.
  rewrite bool_decide_false by by apply map_size_non_empty_iff.
  intros Hrun Hcur. rewrite Hcur in Hrun. simplify_eq.
  unfold listed, marked, numbers. simpl.
  fold (listed (list_lines current 0 (select_by_last_used_desc (sessions w)))).
  fold (marked (list_lines current 0 (select_by_last_used_desc (sessions w)))).
  fold (numbers (list_lines current 0 (select_by_last_used_desc (sessions w)))).
  rewrite list_lines_listed, list_lines_numbers.
  rewrite listing_length.
  split_and!; [apply listing_NoDup|apply listing_elem|done|..].
  - intros c e -> He Hin. rewrite (list_lines_marked_string c e) by done.
    rewrite filter_NoDup_eq by apply listing_NoDup.
    by rewrite decide_True by by apply listing_elem.
  - intros c e -> He Hnone. rewrite (list_lines_marked_string c e) by done.
    rewrite filter_NoDup_eq by apply listing_NoDup.
    rewrite decide_False; [done|]. rewrite listing_elem, Hnone. by intros [].
  - intros c truthy text -> He. by apply (list_lines_marked_other c truthy text).
  - intros ->. apply list_lines_marked_none.
Qed.

End ListCommand.

Lemma sorted_desc_lawful : @listing_lawful sorted_desc.
Proof.
  intros t. split; [apply merge_sort_Permutation|].
  apply StronglySorted_merge_sort.
  - intros a b c. unfold last_used_desc. lia.
  - intros a b. unfold last_used_desc. lia.
Qed.

(** ** Further scenarios, run with the reference JSON reader *)

Section MoreScenarios.
#[local] Existing Instance flat_json.
#[local] Existing Instance sorted_desc.

Lemma getCurrentSession_catches_witness :
  let w := logged_in "not json" in
  live w = Some {[ AUTH_KEY := "not json" ]}
  ∧ printed w (getCurrentSession w) = [ErrParsingCurrent].
Proof.
  intros w. split; [done|].
  destruct (getCurrentSession_catches w {[ AUTH_KEY := "not json" ]} eq_refl)
    as (o & w' & _ & _ & _ & Hiff & _).
  apply Hiff. exists "not json". by vm_compute.
Defined.

Lemma getCurrentSession_blobs_witness :
  let store : gmap string string :=
    <[GOOGLE_KEY := EmptyString]> {[ AUTH_KEY := blob_u ]} in
  let w := fresh (Some store) in
  let c := mkCurrent (JsString "u@x.com") blob_u "{}" in
  getCurrentSession w = Ok (Some c) w
  ∧ store !! AUTH_KEY = Some blob_u
  ∧ cur_google_data c = "{}".
Proof.
  intros store w c.
  assert (getCurrentSession w = Ok (Some c) w) as Hcur by by vm_compute.
  split; [done|].
  destruct (getCurrentSession_blobs w c w store Hcur eq_refl)
    as (Hauth & _ & Hempty & _).
  split; [done|]. apply Hempty. by vm_compute.
Defined.

Lemma syncCurrent_mirrors_witness :
  ∃ w' r,
    syncCurrent 1000 (logged_in blob_u) = Ok tt w'
    ∧ sessions w' !! "u@x.com" = Some r
    ∧ auth_status r = blob_u
    ∧ google_data r = "{}"
    ∧ getCurrentSession w' = Ok (Some (mkCurrent (JsString "u@x.com") blob_u "{}")) w'.
Proof.
  apply (syncCurrent_mirrors (logged_in blob_u) 1000
           (mkCurrent (JsString "u@x.com") blob_u "{}") (logged_in blob_u)).
  by vm_compute.
Defined.

Lemma loadSession_loads_witness :
  ∃ w' store',
    loadSession "a@x.com" 5000 abc_logged_out = Ok tt w'
    ∧ live w' = Some store'
    ∧ store' !! AUTH_KEY = Some (FlatJson.object [("email", "a@x.com")])
    ∧ sessions w' !! "a@x.com"
      = Some (mkRow None (FlatJson.object [("email", "a@x.com")]) "{}"
                5000 0 0).
Proof.
  destruct (loadSession_loads abc_logged_out "a@x.com"
              (abc_row "a@x.com" 1000) ∅ 5000)
    as (w' & store' & Hrun & Hlive & Hauth & _ & _ & Hrow & _);
    [by vm_compute|done|].
  by exists w', store'.
Defined.

Lemma main_exit_status_witness :
  listing_lawful
  ∧ exit_status (main (CmdLoad None) 0 0 abc_world) = 1
  ∧ exit_status (listSessions abc_world) = 1.
Proof.
  split; [apply sorted_desc_lawful|].
  destruct (main_exit_status sorted_desc_lawful (CmdLoad None) 0 0 abc_world)
    as [(_ & Hmain & _) (_ & Hlist & _)].
  split; [apply Hmain; by left|].
  apply Hlist. split; [done|].
  intros Hempty. apply (f_equal size) in Hempty. by vm_compute in Hempty.
Defined.

Lemma getNextSession_moves_on_witness :
  ∃ s, getNextSession (Some (JsString "b@x.com")) abc_world = Ok (Some s) abc_world
    ∧ email s ≠ "b@x.com".
Proof.
  apply (getNextSession_moves_on abc_world "b@x.com");
    [done|vm_compute; eauto|vm_compute; lia].
Defined.

Lemma next_only_session_witness :
  ∃ w1,
    syncCurrent 1000 (print LogSyncing (logged_in blob_u)) = Ok tt w1
    ∧ next 1000 1001 (logged_in blob_u)
      = Ok tt (print (LogAlreadyOnly (JsString "u@x.com")) w1)
    ∧ size (sessions w1) = 1%nat.
Proof.
  destruct (next_only_session (logged_in blob_u)
              (mkCurrent (JsString "u@x.com") blob_u "{}") (logged_in blob_u)
              1000 1001) as (w1 & Hrun & _ & Hsize & Hstring & _);
    [by vm_compute| |].
  { intros k [r Hr]. unfold logged_in, fresh in Hr. simpl in Hr.
    by rewrite lookup_empty in Hr. }
  exists w1. split_and!; [done| |done]. by apply (Hstring "u@x.com").
Defined.

(** With the auth blob [{"email":123}] in the live store and nothing
    else stored, [next] stores the session under ['123'], finds it to be
    another identity than the number 123, and loads it. *)
Example next_only_session_number :
  printed (logged_in blob_123) (next 1000 1001 (logged_in blob_123))
  = [LogSyncing; LogAdded (JsOther true "123"); LogSwitching "123";
     LogLoaded "123"; LogPleaseReload]
  ∧ last_used <$> sessions (world_of (next 1000 1001 (logged_in blob_123)))
                    !! "123"
    = Some 1001.
Proof. by vm_compute. Qed.

Lemma next_switches_witness :
  let w := run second_login (logged_in blob_u) in
  reachable w
  ∧ ∃ w' , next 2000 2001 w = Ok tt w'
      ∧ getCurrentSession w'
        = Ok (Some (mkCurrent (JsString "u@x.com") blob_u "{}")) w'
      ∧ last_used <$> sessions w' !! "u@x.com" = Some 2001.
Proof.
  intros w.
  assert (reachable w) as Hw by by eexists _, _.
  split; [done|].
  destruct (next_switches w (mkCurrent (JsString "v@x.com") blob_v "{}") w
              2000 2001 "v@x.com" "u@x.com" Hw)
    as (w1 & s & w' & v & Hrun & Hnext & Hne & Hgo & _ & Hread & Hv & Hlu);
    [by vm_compute|done|vm_compute; eauto|done|].
  assert (w1 = world_of (syncCurrent 2000 (print LogSyncing w))) as Hw1
    by by rewrite Hrun.
  assert (s = ("u@x.com", mkRow None blob_u "{}" 0 1000 1000)) as ->.
  { rewrite Hw1 in Hnext. vm_compute in Hnext. by injection Hnext as <-. }
  assert (v = JsString "u@x.com") as ->.
  { assert (getCurrentSession w' = getCurrentSession (world_of (next 2000 2001 w)))
      as Hw' by by rewrite Hgo.
    rewrite Hread in Hw'. vm_compute in Hw'. by injection Hw' as ->. }
  exists w'. split_and!; [exact Hgo|exact Hread|exact Hlu].
Defined.

Lemma next_keeps_active_session_witness :
  let w := run second_login (logged_in blob_u) in
  ∃ w' r,
    next 2000 2001 w = Ok tt w'
    ∧ sessions w' !! "v@x.com" = Some r
    ∧ auth_status r = blob_v
    ∧ google_data r = "{}".
Proof.
  intros w.
  apply (next_keeps_active_session w (mkCurrent (JsString "v@x.com") blob_v "{}") w
           2000 2001).
  by vm_compute.
Defined.

Lemma next_without_active_session_witness :
  getCurrentSession abc_logged_out = Ok None abc_logged_out
  ∧ ∃ w', next 1000 5000 abc_logged_out = Ok tt w'
      ∧ last_used <$> sessions w' !! "a@x.com" = Some 5000.
Proof.
  assert (getCurrentSession abc_logged_out = Ok None abc_logged_out) as Hcur
    by by vm_compute.
  split; [done|].
  destruct (next_without_active_session abc_logged_out abc_logged_out
              1000 5000 Hcur) as (w1 & w2 & _ & _ & _ & Hl & Hs & Hnext).
  assert (head (select_ordered (sessions abc_logged_out))
          = Some ("a@x.com", abc_row "a@x.com" 1000)) as Hhead by by vm_compute.
  rewrite Hhead in Hnext. rewrite Hnext, loadSession_unfold. simpl.
  rewrite Hs, Hl. change (email ("a@x.com", abc_row "a@x.com" 1000)) with "a@x.com".
  eexists. split; [by vm_compute|]. by vm_compute.
Defined.

Lemma rows_persist_witness :
  let evs := [EvRun (CmdDelete (Some "a@x.com")) 0 0;
              EvRun (CmdLoad (Some "b@x.com")) 5000 5000] in
  Forall (λ ev, ¬ deletes "b@x.com" ev) evs
  ∧ ∃ r', sessions (run evs abc_logged_out) !! "b@x.com" = Some r'
      ∧ created_at r' = 0 ∧ name r' = None.
Proof.
  intros evs.
  assert (Forall (λ ev, ¬ deletes "b@x.com" ev) evs) as Hall.
  { repeat constructor; simpl; [by intros [= ?]|by intros []]. }
  split; [done|].
  apply (rows_persist evs abc_logged_out "b@x.com" (abc_row "b@x.com" 2000) Hall).
  by vm_compute.
Defined.

Lemma name_never_set_witness :
  let w := run second_login (logged_in blob_u) in
  reachable w ∧ name (mkRow None blob_u "{}" 0 1000 1000) = None.
Proof.
  intros w.
  assert (reachable w) as Hw by by eexists _, _.
  split; [done|].
  apply (name_never_set w "u@x.com" _ Hw). by vm_compute.
Defined.

Lemma stamps_stay_ordered_witness :
  let evs := refreshed_history ++ [EvRun CmdSync 3000 3000] in
  chronological 0 evs
  ∧ stamps_ordered 0 (sessions (logged_in blob_u))
  ∧ stamps_ordered 3000 (sessions (run evs (logged_in blob_u))).
Proof.
  intros evs.
  assert (chronological 0 evs) as Hc by (simpl; lia).
  assert (stamps_ordered 0 (sessions (logged_in blob_u))) as Hs
    by (by intros k r).
  split_and!; [done..|].
  exact (stamps_stay_ordered evs (logged_in blob_u) 0 Hc Hs).
Defined.

Lemma loaded_session_goes_last_witness :
  ∃ w',
    loadSession "a@x.com" 5000 abc_logged_out = Ok tt w'
    ∧ select_ordered (sessions w')
      = select_ordered (delete "a@x.com" (sessions abc_logged_out))
        ++ [("a@x.com", set_last_used 5000 (abc_row "a@x.com" 1000))]
    ∧ getNextSession (Some (JsString "a@x.com")) w'
      = Ok (head (select_ordered (sessions w'))) w'.
Proof.
  apply (loaded_session_goes_last abc_logged_out "a@x.com"
           (abc_row "a@x.com" 1000) ∅ 5000); [done|by vm_compute|done|].
  intros k r' Hk Hr'. revert Hk.
  apply (map_Forall_lookup_1
           (λ k r', k ≠ "a@x.com" → last_used r' < 5000) abc_sessions k r');
    [|done].
  unfold abc_sessions.
  repeat (apply map_Forall_insert_2; [intros _; simpl; lia|]). 
  apply map_Forall_empty.
Defined.

Lemma listSessions_reads_witness :
  listing_lawful
  ∧ listSessions (fresh None) = Ok [LineNoSessionsStored] (fresh None).
Proof.
  split; [apply sorted_desc_lawful|].
  by apply (listSessions_reads sorted_desc_lawful (fresh None)).
Defined.

Lemma listSessions_marks_witness :
  let w := run [EvRun CmdSync 1000 1000] (logged_in blob_u) in
  ∃ lines w', listSessions w = Ok lines w' ∧ marked lines = ["u@x.com"].
Proof.
  intros w.
  assert (∃ lines w', listSessions w = Ok lines w') as (lines & w' & Hrun).
  { eexists _, _. by vm_compute. }
  exists lines, w'. split; [done|].
  destruct (listSessions_marks sorted_desc_lawful w lines w'
              (Some (mkCurrent (JsString "u@x.com") blob_u "{}")) w)
    as (_ & _ & _ & Hmark & _); [by vm_compute|done|by vm_compute|].
  apply (Hmark _ "u@x.com" eq_refl eq_refl). vm_compute. eauto.
Defined.

Lemma abc_on_c_settled :
  settled 3000
    (mkCurrent (JsString "c@x.com") (FlatJson.object [("email", "c@x.com")]) "{}")
    abc_on_c.
Proof.
  split_and!.
  - unfold abc_on_c, abc_sessions. simpl.
    repeat (apply map_Forall_insert_2; [by split_and!|]).
    apply map_Forall_empty.
  - by vm_compute.
  - exists (abc_row "c@x.com" 3000). by split_and!.
  - by vm_compute.
  - unfold abc_on_c, abc_sessions. simpl.
    repeat (apply map_Forall_insert_2; [simpl; lia|]).
    apply map_Forall_empty.
Qed.

Lemma next_rotates_witness :
  ∃ w', next 4000 4001 abc_on_c = Ok tt w'
    ∧ rotation w' = ["b@x.com"; "c@x.com"; "a@x.com"].
Proof.
  destruct (next_rotates abc_on_c _ 3000 4000 4001 abc_on_c_settled)
    as (s & rest & w' & Hlist & Hrun & Hlist' & _); [vm_compute; lia|lia|].
  exists w'. split; [done|].
  unfold rotation. rewrite Hlist'.
  vm_compute in Hlist. by injection Hlist as <- <-.
Defined.

Lemma next_round_robin_witness :
  let nows := [(4000, 4001); (5000, 5001); (6000, 6001); (7000, 7001)] in
  let w' := run (presses nows) abc_on_c in
  rotation w' = ["b@x.com"; "c@x.com"; "a@x.com"]
  ∧ ∃ c', settled 7001 c' w' ∧ cur_email c' = JsString "a@x.com".
Proof.
  intros nows w'.
  destruct (next_round_robin abc_on_c _ 3000 nows abc_on_c_settled)
    as [Hrot (c' & Hset & Hc)]; [simpl; lia|].
  split; [unfold w'; rewrite Hrot; by vm_compute|].
  exists c'. split; [exact Hset|].
  vm_compute in Hc. by injection Hc.
Defined.

Lemma loadSession_settles_witness :
  let w := run (second_login ++ [EvRun CmdSync 2000 2000])
             (logged_in blob_u) in
  map_Forall row_ok (sessions w)
  ∧ ∃ w', loadSession "u@x.com" 3000 w = Ok tt w'
      ∧ settled 3000 (mkCurrent (JsString "u@x.com") blob_u "{}") w'.
Proof.
  intros w.
  assert (map_Forall row_ok (sessions w)) as Hok.
  { apply map_Forall_to_list. vm_compute. by repeat constructor. }
  split; [done|].
  destruct (loadSession_settles w "u@x.com" (mkRow None blob_u "{}" 0 1000 1000)
              {[ AUTH_KEY := blob_v ]} 3000 Hok)
    as (w' & Hload & _ & Hset); [by vm_compute..| |by exists w'].
  intros k r' _.
  apply (map_Forall_lookup_1 (λ _ r', last_used r' < 3000) (sessions w) k r').
  rewrite map_Forall_to_list. vm_compute. by repeat constructor.
Defined.

(** The [list] command on the session stored for the auth blob
    [{"email":123}]: the entry ['123'] is shown without the marker. *)
Example listSessions_number :
  let w := run [EvRun CmdSync 1000 1000] (logged_in blob_123) in
  ∃ w', listSessions w
        = Ok [LineHeader; LineEntry false 1 "123"; LineLastUsed None;
              LineCreated 1000] w'.
Proof. eexists. by vm_compute. Qed.

End MoreScenarios.
